(** * Security_Toolkit: the port scanner

    A shallow embedding of [tools/port_scanner/port_utils.py] (the port
    specification parser and the target list reader) and of
    [tools/port_scanner/scanner.py] (the connect-scan engine), with the
    properties that the design document states about them and further
    properties of the code.

    Conventions of the embedding:
    - a Python [str] is a [string] of ASCII characters, a Python [int] is a [Z],
      Python's [None] in a nullable position is [None] of [option];
    - a call that may raise returns a [Result]: [Ret v] when it returns [v],
      [Raise e] when the exception [e] leaves it;
    - a Python [set] of ints is a [gset Z], and [sorted] of it is the merge sort
      of its elements;
    - a compiled regular expression is a [PyRe.re], obtained from the text of
      the pattern by [PyRe.compile]; on ASCII text [\d] is a decimal digit and
      [str.strip] removes the ASCII white space;
    - the file system that [normalize_targets] reads is a parameter. *)

From Stdlib Require Import Ascii.
From stdpp Require Import gmap strings list sorting pretty.

Open Scope Z_scope.
Set Warnings "-clear-no-such-hyp".

(** ** Exceptions and results *)

(** The exception classes the two files name, taken to be disjoint: no
    exception is an instance of two of them.  [Exception] stands for an
    instance of any other subclass of Python's [Exception]; the argument is
    the text that [str(e)] yields. *)
Inductive exn : Type :=
| ValueError (msg : string)
| timeout_exception (msg : string)
| connection_refused_exception (msg : string)
| Exception (msg : string).

Definition str (e : exn) : string :=
  match e with
  | ValueError msg | timeout_exception msg
  | connection_refused_exception msg | Exception msg => msg
  end.

Inductive Result (A : Type) : Type :=
| Ret (a : A)
| Raise (e : exn).
Arguments Ret {A} a.
Arguments Raise {A} e.

Definition raises {A} (r : Result A) : Prop :=
  match r with Ret _ => False | Raise _ => True end.

(** ** Python string primitives used by [parse_ports] *)

Module PyStr.

(** [c in s] for a one-character [c]. *)
Fixpoint contains (c : Ascii.ascii) (s : string) : bool :=
  match s with
  | EmptyString => false
  | String a s' => if Ascii.eqb a c then true else contains c s'
  end.

(** [s.split(sep)] for a one-character separator: every occurrence cuts, and
    the result always has at least one piece. *)
Fixpoint split (sep : Ascii.ascii) (s : string) : list string :=
  match s with
  | EmptyString => [EmptyString]
  | String a s' =>
      if Ascii.eqb a sep then EmptyString :: split sep s'
      else match split sep s' with
           | piece :: pieces => String a piece :: pieces
           | [] => [String a EmptyString]
           end
  end.

(** [sep.join(pieces)] for a one-character separator. *)
Fixpoint join (sep : ascii) (pieces : list string) : string :=
  match pieces with
  | [] => EmptyString
  | [piece] => piece
  | piece :: rest => piece +:+ String sep (join sep rest)
  end.

(** The ASCII characters for which [str.isspace] holds: tab, line feed,
    vertical tab, form feed, carriage return, the four separators 28..31 and
    the space. *)
Definition isspace (c : Ascii.ascii) : bool :=
  let n := Ascii.nat_of_ascii c in
  ((9 <=? n) && (n <=? 13) || (28 <=? n) && (n <=? 32))%nat.

Fixpoint lstrip (s : string) : string :=
  match s with
  | EmptyString => EmptyString
  | String a s' => if isspace a then lstrip s' else s
  end.

Fixpoint rstrip (s : string) : string :=
  match s with
  | EmptyString => EmptyString
  | String a s' =>
      match rstrip s' with
      | EmptyString => if isspace a then EmptyString else String a EmptyString
      | r => String a r
      end
  end.

(** [s.strip()] *)
Definition strip (s : string) : string := rstrip (lstrip s).

Definition digit (c : Ascii.ascii) : option Z :=
  let n := Ascii.nat_of_ascii c in
  if ((48 <=? n) && (n <=? 57))%nat then Some (Z.of_nat n - 48) else None.

(** The digit part of a decimal literal: digits, with single underscores
    allowed between two digits.  [seen] tells whether the previous character
    was a digit. *)
Fixpoint digits (s : string) (acc : Z) (seen : bool) : option Z :=
  match s with
  | EmptyString => if seen then Some acc else None
  | String a s' =>
      match digit a with
      | Some d => digits s' (10 * acc + d) true
      | None => if Ascii.eqb a "_"%char && seen then digits s' acc false else None
      end
  end.

(** The white space that [int] skips around a literal in an ASCII text:
    tab, line feed, vertical tab, form feed, carriage return and the space.
    The separators 28..31, which [str.strip] removes, are not among them. *)
Definition int_space (c : Ascii.ascii) : bool :=
  let n := Ascii.nat_of_ascii c in
  ((9 <=? n) && (n <=? 13) || (n =? 32))%nat.

Fixpoint int_lstrip (s : string) : string :=
  match s with
  | EmptyString => EmptyString
  | String a s' => if int_space a then int_lstrip s' else s
  end.

Fixpoint int_rstrip (s : string) : string :=
  match s with
  | EmptyString => EmptyString
  | String a s' =>
      match int_rstrip s' with
      | EmptyString => if int_space a then EmptyString else String a EmptyString
      | r => String a r
      end
  end.

(** The largest number of digits that [int] converts,
    [sys.get_int_max_str_digits()]: 4300 unless the interpreter is told
    otherwise. *)
Definition max_str_digits : nat := 4300.

(** The number of digits of [s]; underscores do not count. *)
Fixpoint count_digits (s : string) : nat :=
  match s with
  | EmptyString => 0
  | String a s' =>
      match digit a with
      | Some _ => S (count_digits s')
      | None => count_digits s'
      end
  end.

(** The digit part, within the limit. *)
Definition literal (r : string) : option Z :=
  if (count_digits r <=? max_str_digits)%nat then digits r 0 false else None.

(** [int(s)] in base ten: the white space around the literal is dropped, one
    sign is allowed, then comes the digit part.  [None] stands for the
    [ValueError] that [int] raises on any other text, and on a literal of
    more than [max_str_digits] digits. *)
Definition int (s : string) : option Z :=
  match int_rstrip (int_lstrip s) with
  | String "+"%char r => literal r
  | String "-"%char r => Z.opp <$> literal r
  | r => literal r
  end.

(** [s.startswith(prefix)] *)
Fixpoint startswith (prefix s : string) : bool :=
  match prefix, s with
  | EmptyString, _ => true
  | String a prefix', String b s' => Ascii.eqb a b && startswith prefix' s'
  | String _ _, EmptyString => false
  end.

(** Every character of [s] is a decimal digit. *)
Fixpoint all_digits (s : string) : bool :=
  match s with
  | EmptyString => true
  | String a s' =>
      match digit a with
      | Some _ => all_digits s'
      | None => false
      end
  end.

End PyStr.

(** ** Python regular expressions used by [normalize_targets] *)

Module PyRe.

(** The part of Python's regular expressions that port_utils.py uses. *)
Inductive re : Type :=
| Void                                  (* matches nothing *)
| Eps                                   (* the empty pattern *)
| Lit (c : ascii)                       (* a character, plain or escaped *)
| Any                                   (* . *)
| Digit                                 (* \d *)
| Class (ranges : list (ascii * ascii)) (* [a-z0-9-] *)
| Cat (r1 r2 : re)                      (* r1r2 *)
| Alt (r1 r2 : re)                      (* r1|r2 *)
| Rep (r : re) (lo : nat) (hi : option nat) (* r{lo,hi}  r{lo,}  r?  r+  r* *)
| Bol                                   (* ^ *)
| Eol                                   (* $ *)
| NotAhead (r : re)                     (* (?!r) *)
| NotBehind (c : ascii).                (* (?<!c) *)

(** A position in the subject: the character before it, if any, and the
    text from it on. *)
Definition pos : Type := option ascii * string.

Definition leb (a b : ascii) : bool := (nat_of_ascii a <=? nat_of_ascii b)%nat.

Definition in_class (ranges : list (ascii * ascii)) (a : ascii) : bool :=
  existsb (λ '(lo, hi), leb lo a && leb a hi) ranges.

Definition is_digit (a : ascii) : bool := leb "0" a && leb a "9".

Definition newline : ascii := "010".

(** One character, if it passes [ok]. *)
Definition step (ok : ascii → bool) (p : pos) : list pos :=
  match p.2 with
  | String a s => if ok a then [(Some a, s)] else []
  | EmptyString => []
  end.

(** [f] between 0 and [n] times. *)
Fixpoint upto (f : pos → list pos) (n : nat) (p : pos) : list pos :=
  p :: match n with
       | O => []
       | S n' => p' ← f p; upto f n' p'
       end.

(** [f] exactly [n] times, then [k]. *)
Fixpoint times (f : pos → list pos) (n : nat) (k : pos → list pos) (p : pos)
  : list pos :=
  match n with
  | O => k p
  | S n' => p' ← f p; times f n' k p'
  end.

(** The positions at which a match of [r] that starts at [p] can end. *)
Fixpoint run (r : re) (p : pos) : list pos :=
  match r with
  | Void => []
  | Eps => [p]
  | Lit c => step (Ascii.eqb c) p
  | Any => step (λ a, negb (Ascii.eqb a newline)) p
  | Digit => step is_digit p
  | Class ranges => step (in_class ranges) p
  | Cat r1 r2 => p' ← run r1 p; run r2 p'
  | Alt r1 r2 => run r1 p ++ run r2 p
  | Rep r lo hi =>
      times (run r) lo
        (λ p', upto (run r)
                 (match hi with
                  | Some hi => hi - lo
                  | None => String.length p'.2
                  end)%nat p') p
  | Bol => match p.1 with None => [p] | Some _ => [] end
  | Eol => match p.2 with
           | EmptyString => [p]
           | String a EmptyString => if Ascii.eqb a newline then [p] else []
           | _ => []
           end
  | NotAhead r => match run r p with [] => [p] | _ => [] end
  | NotBehind c => match p.1 with
                   | Some a => if Ascii.eqb a c then [] else [p]
                   | None => [p]
                   end
  end.

(** [pattern.match(s)] as a truth value: a match that starts at the
    beginning of [s] exists. *)
Definition match_ (r : re) (s : string) : bool :=
  match run r (None, s) with
  | [] => false
  | _ => true
  end.


(** *** [re.compile]: from the text of a pattern to the pattern *)

Definition backslash : ascii := "092".

Fixpoint parse_nat (s : string) (acc : nat) (seen : bool)
  : option (nat * string) :=
  match s with
  | String a s' =>
      if is_digit a then
        parse_nat s' (10 * acc + (nat_of_ascii a - 48))%nat true
      else if seen then Some (acc, s) else None
  | EmptyString => if seen then Some (acc, s) else None
  end.

(** A quantifier, if one follows: [?], [+], [*], [{m}], [{m,}], [{m,n}]. *)
Definition parse_quant (s : string)
  : option (option (nat * option nat) * string) :=
  match s with
  | String "?" s' => Some (Some (0, Some 1), s')%nat
  | String "+" s' => Some (Some (1, None), s')%nat
  | String "*" s' => Some (Some (0, None), s')%nat
  | String "{" s' =>
      '(m, s1) ← parse_nat s' 0%nat false;
      match s1 with
      | String "}" s2 => Some (Some (m, Some m), s2)
      | String "," (String "}" s2) => Some (Some (m, None), s2)
      | String "," s2 =>
          '(n, s3) ← parse_nat s2 0%nat false;
          match s3 with
          | String "}" s4 => Some (Some (m, Some n), s4)
          | _ => None
          end
      | _ => None
      end
  | _ => Some (None, s)
  end.

(** The inside of [[...]]: characters and ranges; a dash before the closing
    bracket stands for itself. *)
Fixpoint parse_class (s : string) (acc : list (ascii * ascii))
  : option (list (ascii * ascii) * string) :=
  match s with
  | EmptyString => None
  | String "]" s' => Some (acc, s')
  | String a (String "-" (String b s')) =>
      if Ascii.eqb a backslash || Ascii.eqb b backslash then None
      else if Ascii.eqb b "]" then Some (acc ++ [(a, a); ("-", "-")], s')%char
      else parse_class s' (acc ++ [(a, b)])
  | String a s' =>
      if Ascii.eqb a backslash then None else parse_class s' (acc ++ [(a, a)])
  end.

Definition quantified (q : option (nat * option nat)) (r : re) : re :=
  match q with
  | None => r
  | Some (lo, hi) => Rep r lo hi
  end.

Definition cat (r1 r2 : re) : re :=
  match r2 with
  | Eps => r1
  | _ => Cat r1 r2
  end.

Definition special (a : ascii) : bool :=
  existsb (Ascii.eqb a) ["?"; "+"; "*"; "{"; "}"; "("; ")"; "|"; "["; "]"]%char.

Fixpoint parse_alt (fuel : nat) (s : string) : option (re * string) :=
  match fuel with
  | O => None
  | S fuel =>
      '(r1, s1) ← parse_seq fuel s;
      match s1 with
      | String "|" s2 => '(r2, s3) ← parse_alt fuel s2; Some (Alt r1 r2, s3)
      | _ => Some (r1, s1)
      end
  end
with parse_seq (fuel : nat) (s : string) : option (re * string) :=
  match fuel with
  | O => None
  | S fuel =>
      match s with
      | EmptyString | String "|" _ | String ")" _ => Some (Eps, s)
      | _ =>
          '(a, s1) ← parse_atom fuel s;
          '(q, s2) ← parse_quant s1;
          '(rest, s3) ← parse_seq fuel s2;
          Some (cat (quantified q a) rest, s3)
      end
  end
with parse_atom (fuel : nat) (s : string) : option (re * string) :=
  match fuel with
  | O => None
  | S fuel =>
      let group (wrap : re → re) (s1 : string) :=
        '(r, s2) ← parse_alt fuel s1;
        match s2 with
        | String ")" s3 => Some (wrap r, s3)
        | _ => None
        end in
      match s with
      | EmptyString => None
      | String "(" (String "?" (String ":" s1)) => group id s1
      | String "(" (String "?" (String "!" s1)) => group NotAhead s1
      | String "(" (String "?" (String "<" (String "!" (String c (String ")" s1))))) =>
          if special c || Ascii.eqb c backslash then None
          else Some (NotBehind c, s1)
      | String "(" (String "?" _) => None
      | String "(" s1 => group id s1
      | String "[" (String "^" _) => None
      | String "[" s1 => '(ranges, s2) ← parse_class s1 []; Some (Class ranges, s2)
      | String "^" s1 => Some (Bol, s1)
      | String "$" s1 => Some (Eol, s1)
      | String "." s1 => Some (Any, s1)
      | String a s1 =>
          if Ascii.eqb a backslash then
            match s1 with
            | String "d" s2 => Some (Digit, s2)
            | String c s2 =>
                if is_digit c || in_class [("a", "z"); ("A", "Z")]%char c then None
                else Some (Lit c, s2)
            | EmptyString => None
            end
          else if special a then None
          else Some (Lit a, s1)
      end
  end.

(** [re.compile(text)]; [None] where this model does not read the text. *)
Definition compile (text : string) : option re :=
  match parse_alt (3 * String.length text + 3) text with
  | Some (r, EmptyString) => Some r
  | _ => None
  end.

(** *** What the matches of a pattern have in common *)

(** The character before the position that [s] leads to. *)
Fixpoint last_char (prev : option ascii) (s : string) : option ascii :=
  match s with
  | EmptyString => prev
  | String a s' => last_char (Some a) s'
  end.

(** From [p] the text [pre] leads to [p']. *)
Definition leads (p : pos) (pre : string) (p' : pos) : Prop :=
  p.2 = pre +:+ p'.2 ∧ p'.1 = last_char p.1 pre.

(** Every match of [f] consumes a text that satisfies [Q]. *)
Definition consumes (Q : string → Prop) (f : pos → list pos) : Prop :=
  ∀ p p', p' ∈ f p → ∃ pre, leads p pre p' ∧ Q pre.

(** Every match of [r] consumes the character [c]. *)
Fixpoint needs (c : ascii) (r : re) : bool :=
  match r with
  | Void => true
  | Lit a => Ascii.eqb a c
  | Cat r1 r2 => needs c r1 || needs c r2
  | Alt r1 r2 => needs c r1 && needs c r2
  | Rep r lo _ => (1 <=? lo)%nat && needs c r
  | _ => false
  end.

(** The characters from [lo] to [hi]. *)
Definition chars_between (lo hi : ascii) : list ascii :=
  ascii_of_nat <$> seq (nat_of_ascii lo) (S (nat_of_ascii hi) - nat_of_ascii lo).

(** Every match of [r] consumes only characters that pass [ok]. *)
Fixpoint only (ok : ascii → bool) (r : re) : bool :=
  match r with
  | Lit a => ok a
  | Any => false
  | Digit => forallb ok (chars_between "0" "9")
  | Class ranges => forallb (λ '(lo, hi), forallb ok (chars_between lo hi)) ranges
  | Cat r1 r2 | Alt r1 r2 => only ok r1 && only ok r2
  | Rep r _ _ => only ok r
  | _ => true
  end.

(** Every character of [s] passes [ok]. *)
Fixpoint all_chars (ok : ascii → bool) (s : string) : bool :=
  match s with
  | EmptyString => true
  | String a s' => ok a && all_chars ok s'
  end.

(** Every match of [r] ends where [$] holds. *)
Fixpoint ends_at_eol (r : re) : bool :=
  match r with
  | Void | Eol => true
  | Cat _ r2 => ends_at_eol r2
  | Alt r1 r2 => ends_at_eol r1 && ends_at_eol r2
  | _ => false
  end.

Definition at_eol (p : pos) : Prop :=
  p.2 = EmptyString ∨ p.2 = String newline EmptyString.

(** *** The texts that a pattern matches *)

(** A text of one character that passes [ok]. *)
Definition one (ok : ascii → bool) (pre : string) : Prop :=
  ∃ a, pre = String a EmptyString ∧ ok a = true.

(** [n] texts in a row, each in [D]; [prev] is the character before the
    text and [rest] the text after it. *)
Fixpoint pow (D : option ascii → string → string → Prop) (n : nat)
    (prev : option ascii) (pre rest : string) : Prop :=
  match n with
  | O => pre = EmptyString
  | S n' => ∃ a b, pre = a +:+ b ∧ D prev a (b +:+ rest)
                   ∧ pow D n' (last_char prev a) b rest
  end.

(** [den r prev pre rest]: between [prev] and [rest] the pattern [r]
    matches the text [pre]. *)
Fixpoint den (r : re) (prev : option ascii) (pre rest : string) : Prop :=
  match r with
  | Void => False
  | Eps => pre = EmptyString
  | Lit c => one (Ascii.eqb c) pre
  | Any => one (λ a, negb (Ascii.eqb a newline)) pre
  | Digit => one is_digit pre
  | Class ranges => one (in_class ranges) pre
  | Cat r1 r2 =>
      ∃ a b, pre = a +:+ b ∧ den r1 prev a (b +:+ rest)
             ∧ den r2 (last_char prev a) b rest
  | Alt r1 r2 => den r1 prev pre rest ∨ den r2 prev pre rest
  | Rep r lo hi =>
      ∃ a b m, pre = a +:+ b
               ∧ pow (den r) lo prev a (b +:+ rest)
               ∧ pow (den r) m (last_char prev a) b rest
               ∧ (m ≤ match hi with
                      | Some hi => hi - lo
                      | None => String.length (b +:+ rest)
                      end)%nat
  | Bol => pre = EmptyString ∧ prev = None
  | Eol => pre = EmptyString
           ∧ (rest = EmptyString ∨ rest = String newline EmptyString)
  | NotAhead r =>
      pre = EmptyString ∧ ¬ ∃ a b, rest = a +:+ b ∧ den r prev a b
  | NotBehind c => pre = EmptyString ∧ prev ≠ Some c
  end.

(** [f] computes the matches of [D]. *)
Definition computes (f : pos → list pos)
    (D : option ascii → string → string → Prop) : Prop :=
  ∀ p p', p' ∈ f p ↔ ∃ pre, leads p pre p' ∧ D p.1 pre p'.2.

(** *** Patterns of characters only *)

(** No anchor, no look-around and no unbounded repetition. *)
Fixpoint pure (r : re) : bool :=
  match r with
  | Void | Eps | Lit _ | Any | Digit | Class _ => true
  | Cat r1 r2 | Alt r1 r2 => pure r1 && pure r2
  | Rep r _ (Some _) => pure r
  | _ => false
  end.

(** The longest text that a pure pattern matches is not longer. *)
Fixpoint max_len (r : re) : nat :=
  match r with
  | Lit _ | Any | Digit | Class _ => 1
  | Cat r1 r2 => max_len r1 + max_len r2
  | Alt r1 r2 => max_len r1 `max` max_len r2
  | Rep r lo (Some hi) => (lo + (hi - lo)) * max_len r
  | _ => 0
  end.

(** [r] matches the whole of [s]. *)
Definition accepts (r : re) (s : string) : bool :=
  bool_decide ((last_char None s, EmptyString) ∈ run r (None, s)).

(** The texts of at most [n] characters of [chars]. *)
Fixpoint texts (chars : list ascii) (n : nat) : list string :=
  EmptyString ::
  match n with
  | O => []
  | S n' => a ← chars; String a <$> texts chars n'
  end.

End PyRe.

(** ** port_utils.py *)

Module PortUtils.

Definition default_ports : list Z := [21; 22; 23; 25; 53; 80; 443].

(** [sorted(final_ports)] *)
Definition sorted (final_ports : gset Z) : list Z :=
  merge_sort Z.le (elements final_ports).

(** [range(start, stop)] *)
Definition range (start stop : Z) : list Z := seqZ start (stop - start).

(** The body of the [for token in split_by_comma] loop: one token either
    extends [final_ports] or raises. *)
Definition parse_token (token : string) (final_ports : gset Z)
  : Result (gset Z) :=
  if PyStr.contains "-"%char token then
    let parts := PyStr.split "-"%char token in
    if negb (length parts =? 2)%nat then
      Raise (ValueError ("Invalid range format: '" +:+ token +:+ "'"))
    else
      match List.map PyStr.int parts with
      | [Some start; Some end_] =>
          if (start <? 1) || (end_ >? 65535) || (start >? end_) then
            Raise (ValueError ("Port range out of bounds: '" +:+ token +:+ "'"))
          else Ret (final_ports ∪ list_to_set (range start (end_ + 1)))
      | _ => Raise (ValueError ("Non-numeric range in: '" +:+ token +:+ "'"))
      end
  else
    match PyStr.int token with
    | None => Raise (ValueError ("Invalid port: '" +:+ token +:+ "'"))
    | Some p =>
        if (p <? 1) || (p >? 65535) then
          Raise (ValueError ("Port number out of range: " +:+ pretty p))
        else Ret (final_ports ∪ {[ p ]})
    end.

(** The loop itself: the first token that raises ends the call. *)
Fixpoint parse_tokens (tokens : list string) (final_ports : gset Z)
  : Result (gset Z) :=
  match tokens with
  | [] => Ret final_ports
  | token :: rest =>
      match parse_token token final_ports with
      | Ret final_ports' => parse_tokens rest final_ports'
      | Raise e => Raise e
      end
  end.

(** [[x.strip() for x in port_spec.split(',')]] *)
Definition split_by_comma (port_spec : string) : list string :=
  PyStr.strip <$> PyStr.split ","%char port_spec.

Definition parse_ports (port_spec : option string) : Result (list Z) :=
  match port_spec with
  | None | Some EmptyString => Ret default_ports
  | Some port_spec =>
      match parse_tokens (split_by_comma port_spec) ∅ with
      | Ret final_ports => Ret (sorted final_ports)
      | Raise e => Raise e
      end
  end.

(** A valid port number. *)
Definition valid_port (p : Z) : Prop := 1 <= p <= 65535.

(** What the docstring of [parse_ports] accepts as one item of the
    specification: a single port, or an inclusive range [a-b], each number
    being a decimal literal that denotes a valid port, the range not empty.
    Every other token is malformed or out of range. *)
Definition good_token (t : string) : Prop :=
  (∃ p, PyStr.int t = Some p ∧ valid_port p) ∨
  (∃ a b x y, t = a +:+ "-" +:+ b ∧ PyStr.int a = Some x ∧ PyStr.int b = Some y
              ∧ valid_port x ∧ valid_port y ∧ x <= y).

(** The ports that a good token stands for: the port itself, or every port
    of the range. *)
Definition covers (t : string) (p : Z) : Prop :=
  (PyStr.int t = Some p ∧ valid_port p) ∨
  (∃ a b x y, t = a +:+ "-" +:+ b ∧ PyStr.int a = Some x ∧ PyStr.int b = Some y
              ∧ valid_port x ∧ valid_port y ∧ x <= p <= y).

(** The text a caller writes for a port list, [",".join(str(p) for p in
    ports)]; it is not part of port_utils.py and serves to state that
    [parse_ports] reads it back. *)
Definition render (ports : list Z) : string :=
  PyStr.join "," (pretty <$> ports).

(** [unique_preserve_order]: the loop over [seq], with the set [seen] and
    the list [result] it updates. *)
Fixpoint unique_loop (seq : list string) (seen : gset string)
    (result : list string) : list string :=
  match seq with
  | [] => result
  | item :: rest =>
      if negb (bool_decide (item ∈ seen)) then
        unique_loop rest ({[ item ]} ∪ seen) (result ++ [item])
      else unique_loop rest seen result
  end.

Definition unique_preserve_order (seq : list string) : list string :=
  unique_loop seq ∅ [].

(** *** normalize_targets *)

(** The three patterns, with the text they are compiled from. *)
Definition ipv4_text : string :=
  "^(?:(?:25[0-5]|2[0-4]\d|[01]?\d\d?)\.){3}" +:+
  "(?:25[0-5]|2[0-4]\d|[01]?\d\d?)$".

Definition ipv6_text : string :=
  "^(([0-9a-fA-F]{1,4}:){7,7}[0-9a-fA-F]{1,4}|" +:+
  "([0-9a-fA-F]{1,4}:){1,7}:|" +:+
  "([0-9a-fA-F]{1,4}:){1,6}:[0-9a-fA-F]{1,4}|" +:+
  "([0-9a-fA-F]{1,4}:){1,5}(:[0-9a-fA-F]{1,4}){1,2}|" +:+
  "([0-9a-fA-F]{1,4}:){1,4}(:[0-9a-fA-F]{1,4}){1,3}|" +:+
  "([0-9a-fA-F]{1,4}:){1,3}(:[0-9a-fA-F]{1,4}){1,4}|" +:+
  "([0-9a-fA-F]{1,4}:){1,2}(:[0-9a-fA-F]{1,4}){1,5}|" +:+
  "[0-9a-fA-F]{1,4}:((:[0-9a-fA-F]{1,4}){1,6})|" +:+
  ":((:[0-9a-fA-F]{1,4}){1,7}|:)|" +:+
  "fe80:(:[0-9a-fA-F]{0,4}){0,4}%[0-9a-zA-Z]{1,}|" +:+
  "::(ffff(:0{1,4}){0,1}:){0,1}" +:+
  "((25[0-5]|(2[0-4]|1{0,1}[0-9])?[0-9])\.){3,3}" +:+
  "(25[0-5]|(2[0-4]|1{0,1}[0-9])?[0-9])|" +:+
  "([0-9a-fA-F]{1,4}:){1,4}:" +:+
  "((25[0-5]|(2[0-4]|1{0,1}[0-9])?[0-9])\.){3,3}" +:+
  "(25[0-5]|(2[0-4]|1{0,1}[0-9])?[0-9]))$".

Definition hostname_text : string :=
  "^(?!-)[A-Za-z0-9-]{1,63}(?<!-)(\.[A-Za-z0-9-]{1,63})+$".

Definition ipv4_pattern : PyRe.re :=
  Eval vm_compute in default PyRe.Void (PyRe.compile ipv4_text).

Definition ipv6_pattern : PyRe.re :=
  Eval vm_compute in default PyRe.Void (PyRe.compile ipv6_text).

Definition hostname_pattern : PyRe.re :=
  Eval vm_compute in default PyRe.Void (PyRe.compile hostname_text).

Definition is_valid_target (t : string) : bool :=
  PyRe.match_ ipv4_pattern t
  || PyRe.match_ ipv6_pattern t
  || PyRe.match_ hostname_pattern t.

(** What reading a file gives: its lines, as the iteration over the file
    yields them; an [OSError], with its text, at the opening or on the way; or
    another exception. *)
Inductive file_read : Type :=
| Lines (lines : list string)
| OSError (text : string)
| Fails (e : exn).

Record filesystem : Type := {
  isfile : string → bool;          (* os.path.isfile *)
  open_lines : string → file_read  (* open(path, "r", encoding="utf-8") *)
}.

(** The body of both loops of [normalize_targets]: one line, or one token. *)
Definition collect (targets : list string) (line : string) : list string :=
  let line := PyStr.strip line in
  if match line with EmptyString => true | _ => false end
     || PyStr.startswith "#" line
  then targets
  else if is_valid_target line then targets ++ [line] else targets.

Definition normalize_targets (fs : filesystem) (target_spec : string)
    (file_mode : bool) : Result (list string) :=
  let targets := [] in
  let read :=
    if file_mode || isfile fs target_spec then
      match open_lines fs target_spec with
      | Lines lines => Ret (foldl collect targets lines)
      | OSError text =>
          Raise (ValueError ("Error reading file '" +:+ target_spec +:+ "': "
                             +:+ text))
      | Fails e => Raise e
      end
    else Ret (foldl collect targets (PyStr.split "," target_spec)) in
  match read with
  | Raise e => Raise e
  | Ret [] => Raise (ValueError "No valid targets found")
  | Ret targets => Ret (unique_preserve_order targets)
  end.

(** A file system without files. *)
Definition no_files : filesystem :=
  {| isfile := λ _, false; open_lines := λ _, OSError "No such file" |}.

(** A file system with one file. *)
Definition one_file (path : string) (lines : list string) : filesystem :=
  {| isfile := String.eqb path;
     open_lines := λ p, if String.eqb path p then Lines lines
                        else OSError "No such file" |}.

(** The characters of a target: letters, digits, dot, colon, percent, dash. *)
Definition target_char (a : ascii) : bool :=
  PyRe.in_class [("0", "9"); ("A", "Z"); ("a", "z"); (".", "."); (":", ":");
                 ("%", "%"); ("-", "-")]%char a.

(** The valid targets among the stripped entries. *)
Definition valid_entries (entries : list string) : list string :=
  filter (λ t, is_valid_target t = true) (PyStr.strip <$> entries).

(** What [normalize_targets] makes of the entries it has read, as the proofs
    below show: the valid ones, without duplicates, if there is one. *)
Definition targets_of (entries : list string) : Result (list string) :=
  match valid_entries entries with
  | [] => Raise (ValueError "No valid targets found")
  | targets => Ret (unique_preserve_order targets)
  end.

(** *** The parts of the hostname and IPv4 patterns *)

(** The characters of a label: letters, digits and the dash. *)
Definition host_char (a : ascii) : bool :=
  PyRe.in_class [("A", "Z"); ("a", "z"); ("0", "9"); ("-", "-")]%char a.

(** A label: 1 to 63 such characters. *)
Definition label (s : string) : Prop :=
  PyRe.all_chars host_char s = true ∧ (1 ≤ String.length s ≤ 63)%nat.

(** Each label with a dot before it. *)
Fixpoint dotted (labels : list string) : string :=
  match labels with
  | [] => EmptyString
  | l :: ls => String "." l +:+ dotted ls
  end.

(** The group of the hostname pattern: [\.[A-Za-z0-9-]{1,63}]. *)
Definition dot_label : PyRe.re :=
  PyRe.Cat (PyRe.Lit ".")
    (PyRe.Rep
       (PyRe.Class [("A", "Z"); ("a", "z"); ("0", "9"); ("-", "-")]%char)
       1 (Some 63%nat)).

(** One field of the IPv4 pattern: [25[0-5]|2[0-4]\d|[01]?\d\d?]. *)
Definition octet_pattern : PyRe.re :=
  PyRe.Alt
    (PyRe.Cat (PyRe.Lit "2")
       (PyRe.Cat (PyRe.Lit "5") (PyRe.Class [("0", "5")]%char)))
    (PyRe.Alt
       (PyRe.Cat (PyRe.Lit "2")
          (PyRe.Cat (PyRe.Class [("0", "4")]%char) PyRe.Digit))
       (PyRe.Cat
          (PyRe.Rep (PyRe.Class [("0", "0"); ("1", "1")]%char) 0 (Some 1%nat))
          (PyRe.Cat PyRe.Digit (PyRe.Rep PyRe.Digit 0 (Some 1%nat))))).

(** One to three digits that denote a number up to 255. *)
Definition octet (s : string) : bool :=
  PyRe.all_chars PyRe.is_digit s
  && (1 <=? String.length s)%nat && (String.length s <=? 3)%nat
  && match PyStr.int s with
     | Some n => n <=? 255
     | None => false
     end.

End PortUtils.

(** ** scanner.py *)

(** One record of the report, with the keys of the source's record literal. *)
Module ScanResult.
Record t : Type := make {
  target : string;
  port : Z;
  status : string;
  latency_ms : option Z;
  banner : option string;
  timestamp : Z
}.
End ScanResult.

Module Scanner.

(** *** The outside world

    What a call observes of the clock and of the network is fixed by a
    [network]; what it does to them is recorded as a list of [event]s.  Clock
    readings and the timeout are integers (the unit is of no concern here). *)

Inductive event : Type :=
| ev_clock                                          (* now(), time.time() *)
| ev_socket (raised : option exn)                   (* socket.socket(...) *)
| ev_settimeout (timeout : Z)                       (* s.settimeout(timeout) *)
| ev_connect (target : string) (port : Z) (raised : option exn)
| ev_banner_grab (target : string) (port : Z)
| ev_close                                          (* s.close() *)
| ev_exit.                            (* the socket released by [with] *)

Record network : Type := {
  (** the n-th reading of the clock *)
  clock : nat → Z;
  (** [socket.socket(socket.AF_INET, socket.SOCKSTREAM)]: [None] when the
      socket is created, [Some e] when the expression raises [e].  Python's
      own [socket] module names the constant [SOCK_STREAM] and has no
      [SOCKSTREAM]: with it the expression raises [AttributeError], which
      is the case [Some (Exception _)]. *)
  open_socket : option exn;
  (** [s.connect((target, port))]: [None] when the connection is
      established, [Some e] when the attempt ends with [e] *)
  connect : string → Z → option exn;
  (** [banner_grab(s, target, port, timeout)], which the file calls and does
      not define: the text it returns ([None] for Python's [None]), or the
      exception it raises *)
  banner_grab : string → Z → Result (option string)
}.

(** A computation reads the clock from some reading on, and yields a result,
    the next reading and the events it caused. *)
Definition M (A : Type) : Type := nat → Result A * nat * list event.

Definition result {A} (o : Result A * nat * list event) : Result A := o.1.1.
Definition events {A} (o : Result A * nat * list event) : list event := o.2.

#[export] Instance M_ret : MRet M := λ A a n, (Ret a, n, []).

#[export] Instance M_bind : MBind M := λ A B k m n,
  match m n with
  | (Ret a, n', evs) =>
      match k a n' with (r, n'', evs') => (r, n'', evs ++ evs') end
  | (Raise e, n', evs) => (Raise e, n', evs)
  end.

Definition raise {A} (e : exn) : M A := λ n, (Raise e, n, []).

Definition emit (ev : event) : M unit := λ n, (Ret tt, n, [ev]).

(** [try: body / except ... as e: handler e] *)
Definition try_except {A} (body : M A) (handler : exn → M A) : M A := λ n,
  match body n with
  | (Ret a, n', evs) => (Ret a, n', evs)
  | (Raise e, n', evs) =>
      match handler e n' with (r, n'', evs') => (r, n'', evs ++ evs') end
  end.

(** [with resource as s: body]: the socket is released when the block is
    left, by its end or by an exception. *)
Definition with_ {A} (resource : M unit) (body : M A) : M A := λ n,
  match resource n with
  | (Ret _, n', evs) =>
      match body n' with (r, n'', evs') => (r, n'', evs ++ evs' ++ [ev_exit]) end
  | (Raise e, n', evs) => (Raise e, n', evs)
  end.

(** [for x in xs: body], whose body may [return] from the enclosing
    function. *)
Inductive flow (S R : Type) : Type :=
| Next (s : S)
| Return (r : R).
Arguments Next {S R} s.
Arguments Return {S R} r.

Fixpoint for_ {A S R} (xs : list A) (body : A → S → M (flow S R)) (s : S)
  : M (flow S R) :=
  match xs with
  | [] => mret (Next s)
  | x :: xs' =>
      f ← body x s;
      match f with
      | Next s' => for_ xs' body s'
      | Return r => mret (Return r)
      end
  end.

(** Python's [a or b] on strings: [a] when it is not empty, else [b]. *)
Definition or_ (a b : string) : string :=
  match a with
  | EmptyString => b
  | _ => a
  end.

(** The names the worker binds before it returns. *)
Record locals : Type := {
  status : string;
  latency : option Z;
  banner_text : option string
}.

(** The largest timeout, in seconds, that a socket accepts: its clock counts
    nanoseconds in 63 bits. *)
Definition max_timeout : Z := 9223372036.

Section worker.

Variable net : network.

Definition now : M Z := λ n, (Ret (clock net n), S n, [ev_clock]).

Definition time_time : M Z := now.

Definition socket_socket : M unit :=
  emit (ev_socket (open_socket net));;
  match open_socket net with
  | None => mret tt
  | Some e => raise e
  end.

(** [s.settimeout(timeout)] for a number of seconds: a timeout that is too
    large for the clock of the socket, in either direction, raises
    [OverflowError], and any other negative timeout [ValueError]. *)
Definition settimeout (timeout : Z) : M unit :=
  emit (ev_settimeout timeout);;
  if (timeout <? - max_timeout) || (max_timeout <? timeout) then
    raise (Exception "timestamp too large to convert to C _PyTime_t")
  else if timeout <? 0 then raise (ValueError "Timeout value out of range")
  else mret tt.

Definition s_connect (target : string) (port : Z) : M unit :=
  emit (ev_connect target port (connect net target port));;
  match connect net target port with
  | None => mret tt
  | Some e => raise e
  end.

Definition s_banner_grab (target : string) (port : Z) : M (option string) :=
  emit (ev_banner_grab target port);;
  match banner_grab net target port with
  | Ret text => mret text
  | Raise e => raise e
  end.

Definition s_close : M unit := emit ev_close.

(** [worker] is local to [connect_scan]; of its arguments it uses [target],
    [timeout] and [banner]. *)
Variables (target : string) (timeout : Z) (banner : bool).

(** The [try] block of [worker]. *)
Definition worker_try (port : Z) : M locals :=
  with_ socket_socket (
    settimeout timeout;;
    start ← now;
    s_connect target port;;
    end_ ← now;
    let latency := (end_ - start) * 1000 in
    let status := "open" in
    let banner_text := None in
    banner_text ← (if banner then s_banner_grab target port
                   else mret banner_text);
    s_close;;
    mret {| status := status; latency := Some latency;
            banner_text := banner_text |}).

(** [worker] up to its [return]: the [try] block and its three handlers. *)
Definition worker_locals (port : Z) : M locals :=
  start_time ← time_time;
  try_except (worker_try port) (λ e,
    match e with
    | timeout_exception _ =>
        mret {| status := or_ "filtered" "closed"; latency := None;
                banner_text := None |}
    | connection_refused_exception _ =>
        mret {| status := "closed"; latency := None; banner_text := None |}
    | e =>
        mret {| status := "error"; latency := None;
                banner_text := Some (str e) |}
    end).

(** [worker] ends in a bare [return]: the caller receives [None]. *)
Definition worker (port : Z) : M (option ScanResult.t) :=
  _ ← worker_locals port;
  mret None.

End worker.

(** [connect_scan].  In the dry run the [return results] stands in the body
    of the loop.  When the loop ends without reaching it, and when [dry_run]
    is off, the function defines [worker] and ends: it returns [None]. *)
Definition connect_scan (net : network) (target : string) (ports : list Z)
    (timeout concurrency : Z) (dry_run banner : bool)
  : M (option (list ScanResult.t)) :=
  let results := [] in
  f ← (if dry_run then
         for_ ports (λ port results,
           t ← now net;
           let results :=
             results ++ [ScanResult.make target port "simulated" None None t] in
           mret (Return results)) results
       else mret (Next results));
  match f with
  | Return results => mret (Some results)
  | Next _ =>
      let worker := worker net target timeout banner in
      mret None
  end.

(** The records a call hands to its caller. *)
Definition produced (r : Result (option (list ScanResult.t)))
  : list ScanResult.t :=
  match r with
  | Ret (Some results) => results
  | _ => []
  end.

(** What an event adds to the number of open sockets. *)
Definition delta (ev : event) : Z :=
  match ev with
  | ev_socket None => 1
  | ev_exit => -1
  | _ => 0
  end.

(** The number of sockets that are open after a run of events, that is the
    number of probes in flight. *)
Definition in_flight (evs : list event) : Z :=
  foldr (λ ev k, delta ev + k) 0 evs.

(** Along a run of events that starts with [k] sockets open, the number of
    open sockets stays between 0 and [bound]. *)
Fixpoint within (bound k : Z) (evs : list event) : bool :=
  (0 <=? k) && (k <=? bound) &&
  match evs with
  | [] => true
  | ev :: evs' => within bound (k + delta ev) evs'
  end.


(** No event of a run touches the network. *)
Definition no_io (evs : list event) : Prop := Forall (λ ev, ev = ev_clock) evs.

(** The event is a connection attempt. *)
Definition is_connect (ev : event) : bool :=
  match ev with
  | ev_connect _ _ _ => true
  | _ => false
  end.

(** A network where every connection attempt meets [e]. *)
Definition failing (e : exn) : network :=
  {| clock := Z.of_nat; open_socket := None;
     connect := λ _ _, Some e; banner_grab := λ _ _, Ret None |}.

(** A network where every port is open and silent. *)
Definition open_net : network :=
  {| clock := Z.of_nat; open_socket := None;
     connect := λ _ _, None; banner_grab := λ _ _, Ret None |}.

End Scanner.

(** * Properties of port_utils.py *)

Module PortUtilsProofs.
Import PortUtils.

Example parse_ports_22 : parse_ports (Some "22") = Ret [22].
Proof. vm_compute. reflexivity. Qed.

Example parse_ports_list_range :
  parse_ports (Some "22,80,1000-1002") = Ret [22; 80; 1000; 1001; 1002].
Proof. vm_compute. reflexivity. Qed.

Example parse_ports_unsorted_dup :
  parse_ports (Some " 443, 22 ,80-82,81,22") = Ret [22; 80; 81; 82; 443].
Proof. vm_compute. reflexivity. Qed.

Example parse_ports_zero :
  parse_ports (Some "0") = Raise (ValueError "Port number out of range: 0").
Proof. vm_compute. reflexivity. Qed.

Example parse_ports_reversed :
  parse_ports (Some "22,90-80")
  = Raise (ValueError "Port range out of bounds: '90-80'").
Proof. vm_compute. reflexivity. Qed.

Example parse_ports_negative :
  parse_ports (Some "-5") = Raise (ValueError "Non-numeric range in: '-5'").
Proof. vm_compute. reflexivity. Qed.

(** [int] reads a sign, blanks around the number and underscores between
    digits, so such tokens are numbers too. *)
Example parse_ports_lenient_literal :
  parse_ports (Some "+2_2, 080 ") = Ret [22; 80].
Proof. vm_compute. reflexivity. Qed.

Example parse_ports_empty_token :
  parse_ports (Some "22,,80") = Raise (ValueError "Invalid port: ''").
Proof. vm_compute. reflexivity. Qed.

(** [str.strip] removes the separators 28..31 around a token, and [int]
    does not accept them around a number. *)
Example parse_ports_separator :
  parse_ports (Some (String "028" "22")) = Ret [22]
  ∧ PyStr.int (String "028" "22") = None
  ∧ parse_ports (Some ("1" +:+ String "028" "-5"))
    = Raise (ValueError
               ("Non-numeric range in: '1" +:+ String "028" "-5'")).
Proof. vm_compute. done. Qed.

(** A numeral of more than 4300 digits is no number for [int], whatever its
    value. *)
Example parse_ports_digit_limit :
  parse_ports
    (Some (String.string_of_list_ascii (replicate 4298 "0"%char) +:+ "22"))
  = Ret [22]
  ∧ ∃ msg,
      parse_ports
        (Some (String.string_of_list_ascii (replicate 4299 "0"%char) +:+ "22"))
      = Raise (ValueError msg).
Proof. split; [|eexists]; vm_compute; reflexivity. Qed.

(** *** Splitting and joining *)

Lemma split_nonempty sep s : PyStr.split sep s ≠ [].
Proof. destruct s as [|a s]; simpl; [done|]. by repeat case_match. Qed.

Lemma join_split sep s : PyStr.join sep (PyStr.split sep s) = s.
Proof.
  induction s as [|a s IH]; [done|]. simpl.
  destruct (Ascii.eqb_spec a sep) as [->|Hne].
  - pose proof (split_nonempty sep s).
    destruct (PyStr.split sep s) eqn:E; [done|]. simpl in *. by rewrite IH.
  - destruct (PyStr.split sep s) as [|piece pieces] eqn:E.
    + by destruct (split_nonempty sep s).
    + simpl in *. destruct pieces; simpl in *; by rewrite <- IH.
Qed.

Lemma split_two sep s a b :
  PyStr.split sep s = [a; b] → s = a +:+ String sep b.
Proof. intros E. by rewrite <- (join_split sep s), E. Qed.

(** *** The loop invariant of [parse_ports] *)

Lemma parse_token_Ret token X X' :
  parse_token token X = Ret X' →
  good_token token ∧ ∀ p, p ∈ X' → p ∈ X ∨ valid_port p.
Proof.
  unfold parse_token, good_token, valid_port, range.
  destruct (PyStr.contains "-" token).
  - destruct (PyStr.split "-" token) as [|a [|b [|c parts]]] eqn:E;
      simpl; try done.
    destruct (PyStr.int a) as [x|] eqn:Ea; [|done].
    destruct (PyStr.int b) as [y|] eqn:Eb; [|done].
    destruct ((x <? 1) || (y >? 65535) || (x >? y)) eqn:Hb; [done|].
    intros [= <-]. apply split_two in E. split.
    + right. exists a, b, x, y. simpl. repeat split; try done; lia.
    + intros p [Hp|Hp]%elem_of_union; [by left|right].
      apply elem_of_list_to_set, elem_of_seqZ in Hp. lia.
  - destruct (PyStr.int token) as [p|] eqn:Ep; [|done].
    destruct ((p <? 1) || (p >? 65535)) eqn:Hb; [done|].
    intros [= <-]. split.
    + left. exists p. split; [done|lia].
    + intros q [Hq|Hq]%elem_of_union; [by left|right].
      apply elem_of_singleton in Hq as ->. lia.
Qed.


Lemma parse_tokens_Ret tokens : ∀ X X',
  parse_tokens tokens X = Ret X' →
  Forall good_token tokens ∧ ∀ p, p ∈ X' → p ∈ X ∨ valid_port p.
Proof.
  induction tokens as [|token rest IH]; intros X X'; simpl.
  - intros [= <-]. split; [constructor|auto].
  - destruct (parse_token token X) as [X1|] eqn:E1; [|done].
    intros E. apply parse_token_Ret in E1 as [Hgood H1].
    apply IH in E as [Hrest H2]. split; [by constructor|].
    intros p Hp. destruct (H2 p Hp) as [?|?]; auto.
Qed.


(** *** [sorted] of a set *)

Lemma sorted_Sorted X : Sorted Z.le (sorted X).
Proof. apply Sorted_merge_sort. intros x y. lia. Qed.

Lemma sorted_NoDup X : NoDup (sorted X).
Proof.
  unfold sorted. rewrite merge_sort_Permutation. apply NoDup_elements.
Qed.

Lemma elem_of_sorted X p : p ∈ sorted X ↔ p ∈ X.
Proof.
  unfold sorted. by rewrite merge_sort_Permutation, elem_of_elements.
Qed.

Lemma parse_ports_Ret port_spec ports :
  port_spec ≠ EmptyString →
  parse_ports (Some port_spec) = Ret ports →
  Forall good_token (split_by_comma port_spec)
  ∧ Sorted Z.le ports ∧ NoDup ports ∧ Forall valid_port ports.
Proof.
  intros Hne. unfold parse_ports.
  destruct port_spec as [|a s]; [done|].
  destruct (parse_tokens _ ∅) as [X|] eqn:E; [|done].
  intros [= <-]. apply parse_tokens_Ret in E as [Hgood Hin].
  repeat split; auto using sorted_Sorted, sorted_NoDup.
  apply Forall_forall. intros p Hp%elem_of_sorted.
  destruct (Hin p Hp) as [Hp'|Hp']; [|done]. by apply not_elem_of_empty in Hp'.
Qed.




Lemma contains_app c a b : PyStr.contains c (a +:+ String c b) = true.
Proof.
  induction a as [|x a IH]; simpl.
  - by rewrite Ascii.eqb_refl.
  - by destruct (Ascii.eqb x c).
Qed.


(** C10. Without a specification ([None] or the empty string) [parse_ports]
    neither raises nor returns an empty list: it returns the seven default
    ports 21, 22, 23, 25, 53, 80 and 443. *)
Theorem parse_ports_default :
  parse_ports None = Ret [21; 22; 23; 25; 53; 80; 443]
  ∧ parse_ports (Some EmptyString) = Ret [21; 22; 23; 25; 53; 80; 443].
Proof. split; reflexivity. Qed.

End PortUtilsProofs.

(** * Properties of scanner.py *)

Module ScannerProofs.
Import Scanner.

Ltac run :=
  cbv [connect_scan worker worker_locals worker_try with_ try_except for_
       socket_socket settimeout s_connect s_banner_grab s_close now time_time
       emit raise mbind M_bind mret M_ret result events produced].

Example dry_run_two_ports :
  result (connect_scan open_net "10.0.0.1" [22; 80] 1 5 true false 0%nat)
  = Ret (Some [ScanResult.make "10.0.0.1" 22 "simulated" None None 0]).
Proof. reflexivity. Qed.

Example scan_two_ports :
  connect_scan open_net "10.0.0.1" [22; 80] 1 5 false false 0%nat
  = (Ret None, 0%nat, []).
Proof. reflexivity. Qed.

Example worker_open :
  worker_locals open_net "10.0.0.1" 1 false 22 0%nat
  = (Ret {| status := "open"; latency := Some 1000; banner_text := None |},
     3%nat,
     [ev_clock; ev_socket None; ev_settimeout 1; ev_clock;
      ev_connect "10.0.0.1" 22 None; ev_clock; ev_close; ev_exit]).
Proof. reflexivity. Qed.

Example worker_refused :
  worker_locals (failing (connection_refused_exception "Connection refused"))
    "10.0.0.1" 1 true 22 0%nat
  = (Ret {| status := "closed"; latency := None; banner_text := None |},
     2%nat,
     [ev_clock; ev_socket None; ev_settimeout 1; ev_clock;
      ev_connect "10.0.0.1" 22
        (Some (connection_refused_exception "Connection refused"));
      ev_exit]).
Proof. reflexivity. Qed.

(** *** What [connect_scan] computes *)

Lemma connect_scan_dry_run_cons net target port rest timeout concurrency banner n :
  connect_scan net target (port :: rest) timeout concurrency true banner n
  = (Ret (Some [ScanResult.make target port "simulated" None None (clock net n)]),
     S n, [ev_clock]).
Proof. reflexivity. Qed.

Lemma connect_scan_dry_run_nil net target timeout concurrency banner n :
  connect_scan net target [] timeout concurrency true banner n
  = (Ret None, n, []).
Proof. reflexivity. Qed.

Lemma connect_scan_no_dry_run net target ports timeout concurrency banner n :
  connect_scan net target ports timeout concurrency false banner n
  = (Ret None, n, []).
Proof. reflexivity. Qed.

(** *** What [worker] computes *)

(** The exception that ends the connection attempt leaves the [try] block. *)
(** [settimeout] accepts the timeouts from 0 to [max_timeout]. *)
Lemma settimeout_range timeout :
  0 <= timeout <= max_timeout ↔
  (timeout <? - max_timeout) || (max_timeout <? timeout) = false
  ∧ (timeout <? 0) = false.
Proof.
  unfold max_timeout. rewrite orb_false_iff, !Z.ltb_ge. lia.
Qed.

Lemma worker_try_connect_raises net target timeout banner port n e :
  0 <= timeout <= max_timeout →
  open_socket net = None →
  connect net target port = Some e →
  worker_try net target timeout banner port n
  = (Raise e, S n,
     [ev_socket None; ev_settimeout timeout; ev_clock;
      ev_connect target port (Some e); ev_exit]).
Proof.
  intros [Ht1 Ht2]%settimeout_range Hs Hc. run. by rewrite Hs, Hc, Ht1, Ht2.
Qed.

(** The exception that the creation of the socket raises leaves the [try]
    block before anything else is done. *)
Lemma worker_try_socket_raises net target timeout banner port n e :
  open_socket net = Some e →
  worker_try net target timeout banner port n
  = (Raise e, n, [ev_socket (Some e)]).
Proof. intros Hs. run. by rewrite Hs. Qed.

(** Whatever leaves the [try] block is met by one of the handlers, none of
    which raises. *)
Lemma worker_locals_returns net target timeout banner port n :
  ∃ l n' evs,
    worker_locals net target timeout banner port n = (Ret l, n', evs).
Proof.
  unfold worker_locals. cbv [mbind M_bind time_time now try_except].
  destruct (worker_try net target timeout banner port (S n))
    as [[[l|e] n'] evs]; [by eauto|].
  destruct e; cbv [mret M_ret]; eauto.
Qed.

Lemma worker_returns net target timeout banner port n :
  ∃ n' evs, worker net target timeout banner port n = (Ret None, n', evs).
Proof.
  destruct (worker_locals_returns net target timeout banner port n)
    as (l & n' & evs & E).
  unfold worker. cbv [mbind M_bind mret M_ret]. rewrite E. eauto.
Qed.

(** The handlers of [worker], applied to the exception that ends the
    connection attempt. *)
Lemma worker_locals_connect_raises net target timeout banner port n e :
  0 <= timeout <= max_timeout →
  open_socket net = None →
  connect net target port = Some e →
  result (worker_locals net target timeout banner port n)
  = Ret match e with
        | timeout_exception _ =>
            {| status := "filtered"; latency := None; banner_text := None |}
        | connection_refused_exception _ =>
            {| status := "closed"; latency := None; banner_text := None |}
        | _ =>
            {| status := "error"; latency := None; banner_text := Some (str e) |}
        end.
Proof.
  intros Ht Hs Hc. unfold worker_locals.
  cbv [mbind M_bind time_time now try_except].
  rewrite (worker_try_connect_raises _ _ _ _ _ _ e) by done.
  by destruct e.
Qed.

Lemma worker_locals_socket_raises net target timeout banner port n e :
  open_socket net = Some e →
  result (worker_locals net target timeout banner port n)
  = Ret match e with
        | timeout_exception _ =>
            {| status := "filtered"; latency := None; banner_text := None |}
        | connection_refused_exception _ =>
            {| status := "closed"; latency := None; banner_text := None |}
        | _ =>
            {| status := "error"; latency := None; banner_text := Some (str e) |}
        end.
Proof.
  intros Hs. unfold worker_locals.
  cbv [mbind M_bind time_time now try_except].
  rewrite (worker_try_socket_raises _ _ _ _ _ _ e) by done.
  by destruct e.
Qed.

Example worker_timeout :
  result (worker_locals (failing (timeout_exception "timed out"))
            "10.0.0.1" 1 false 9999 0%nat)
  = Ret {| status := "filtered"; latency := None; banner_text := None |}
  ∧ result (worker (failing (timeout_exception "timed out"))
              "10.0.0.1" 1 false 9999 0%nat) = Ret None
  ∧ result (connect_scan (failing (timeout_exception "timed out"))
              "10.0.0.1" [9999] 1 5 false false 0%nat) = Ret None.
Proof. repeat split. Qed.

(** A timeout that [settimeout] does not accept ends the probe before it
    connects. *)
Example worker_timeout_too_large :
  worker_locals open_net "10.0.0.1" 10000000000 false 22 0%nat
  = (Ret {| status := "error"; latency := None;
            banner_text :=
              Some "timestamp too large to convert to C _PyTime_t" |},
     1%nat,
     [ev_clock; ev_socket None; ev_settimeout 10000000000; ev_exit]).
Proof. reflexivity. Qed.

(** With a [socket] module that has no [SOCKSTREAM] the probe ends where it
    would create its socket. *)
Example worker_without_SOCKSTREAM :
  worker_locals
    {| clock := Z.of_nat;
       open_socket :=
         Some (Exception "module 'socket' has no attribute 'SOCKSTREAM'");
       connect := λ _ _, None; banner_grab := λ _ _, Ret None |}
    "10.0.0.1" 1 false 22 0%nat
  = (Ret {| status := "error"; latency := None;
            banner_text :=
              Some "module 'socket' has no attribute 'SOCKSTREAM'" |},
     1%nat,
     [ev_clock;
      ev_socket
        (Some (Exception "module 'socket' has no attribute 'SOCKSTREAM'"))]).
Proof. reflexivity. Qed.

(** C2. A probe whose connection attempt ends in the expiry of the timeout
    should yield a record with the status [filtered], and one whose attempt
    is refused a record with the status [closed], each without latency and
    banner.  No such record results: [worker] returns [None], whatever the
    attempt ends in, and [connect_scan] with [dry_run] off returns [None]
    without running a probe.  The values are worked out and dropped: at its
    [return] the worker holds [filtered] after a timeout and [closed] after a
    refusal, with neither latency nor banner. *)
Theorem worker_timeout_refusal_no_record
    net target ports timeout concurrency banner port n :
  result (worker net target timeout banner port n) = Ret None
  ∧ result (connect_scan net target ports timeout concurrency false banner n)
    = Ret None
  ∧ (open_socket net = None → 0 <= timeout <= max_timeout →
     ∀ msg,
       (connect net target port = Some (timeout_exception msg) →
        result (worker_locals net target timeout banner port n)
        = Ret {| status := "filtered"; latency := None;
                 banner_text := None |})
       ∧ (connect net target port = Some (connection_refused_exception msg) →
          result (worker_locals net target timeout banner port n)
          = Ret {| status := "closed"; latency := None;
                   banner_text := None |})).
Proof.
  split; [|split].
  - destruct (worker_returns net target timeout banner port n)
      as (n' & evs & E).
    by rewrite E.
  - by rewrite connect_scan_no_dry_run.
  - intros Hs Ht msg. split; intros Hc;
      by rewrite (worker_locals_connect_raises _ _ _ _ _ _ _ Ht Hs Hc).
Qed.

(** C4. A probe should hand one record to its caller.  [worker] lets no
    exception out, but it ends in a bare [return]: for every port, under every
    network and every option, the caller receives [None], not a record; the
    status, latency and banner it has worked out are dropped. *)
Theorem worker_returns_None net target timeout banner port n :
  result (worker net target timeout banner port n) = Ret None.
Proof.
  destruct (worker_returns net target timeout banner port n) as (n' & evs & E).
  by rewrite E.
Qed.

(** C8. A probe that fails in another way than by a timeout or a refusal
    should yield a record with the status [error], no latency and the
    description of the failure as banner.  No such record results either:
    [worker] returns [None] and [connect_scan] with [dry_run] off returns
    [None].  The failure does stay inside the probe, which raises nothing,
    and the values are worked out and dropped: whether the exception comes
    from the creation of the socket or from the connection attempt, at its
    [return] the worker holds [error], no latency and the text of the
    exception. *)
Theorem worker_other_failure_no_record
    net target ports timeout concurrency banner port n :
  result (worker net target timeout banner port n) = Ret None
  ∧ result (connect_scan net target ports timeout concurrency false banner n)
    = Ret None
  ∧ ∀ e,
      (∀ msg, e ≠ timeout_exception msg) →
      (∀ msg, e ≠ connection_refused_exception msg) →
      open_socket net = Some e
      ∨ (open_socket net = None ∧ 0 <= timeout <= max_timeout
         ∧ connect net target port = Some e) →
      result (worker_locals net target timeout banner port n)
      = Ret {| status := "error"; latency := None;
               banner_text := Some (str e) |}.
Proof.
  split; [|split].
  - destruct (worker_returns net target timeout banner port n)
      as (n' & evs & E).
    by rewrite E.
  - by rewrite connect_scan_no_dry_run.
  - intros e Hnt Hnr [Hs|(Hs & Ht & Hc)].
    + rewrite (worker_locals_socket_raises _ _ _ _ _ _ e) by done.
      destruct e as [msg|msg|msg|msg]; try done.
      * by destruct (Hnt msg).
      * by destruct (Hnr msg).
    + rewrite (worker_locals_connect_raises _ _ _ _ _ _ e) by done.
      destruct e as [msg|msg|msg|msg]; try done.
      * by destruct (Hnt msg).
      * by destruct (Hnr msg).
Qed.

Example worker_resolution_failure :
  result (worker_locals
            (failing (Exception "[Errno -2] Name or service not known"))
            "no.such.host" 1 true 22 0%nat)
  = Ret {| status := "error"; latency := None;
           banner_text := Some "[Errno -2] Name or service not known" |}
  ∧ result (worker
              (failing (Exception "[Errno -2] Name or service not known"))
              "no.such.host" 1 true 22 0%nat) = Ret None.
Proof. repeat split. Qed.

(** *** Sockets in flight *)

Lemma within_prefix bound evs : ∀ k pre,
  within bound k evs = true →
  pre `prefix_of` evs →
  0 <= k + in_flight pre <= bound.
Proof.
  induction evs as [|ev evs IH]; intros k pre Hw Hpre; simpl in Hw;
    apply andb_prop in Hw as [[H0 Hb]%andb_prop Hw];
    apply Z.leb_le in H0; apply Z.leb_le in Hb.
  - apply prefix_nil_inv in Hpre as ->. simpl. lia.
  - destruct pre as [|ev' pre]; [simpl; lia|].
    apply prefix_cons_inv_1 in Hpre as Hev. subst ev'.
    apply prefix_cons_inv_2 in Hpre.
    specialize (IH _ _ Hw Hpre). simpl. lia.
Qed.

(** A probe holds at most one socket, and has released it when it ends. *)
Lemma worker_in_flight net target timeout banner port n :
  let evs := events (worker net target timeout banner port n) in
  (∀ pre, pre `prefix_of` evs → 0 <= in_flight pre <= 1)
  ∧ in_flight evs = 0.
Proof.
  assert (within 1 0 (events (worker net target timeout banner port n)) = true
          ∧ in_flight (events (worker net target timeout banner port n)) = 0)
    as [Hw H0].
  { run.
    destruct (open_socket net) as [e|]; [by destruct e|].
    destruct ((timeout <? - max_timeout) || (max_timeout <? timeout)); [done|].
    destruct (timeout <? 0); [done|].
    destruct (connect net target port) as [e|]; [by destruct e|].
    destruct banner; [|done].
    destruct (banner_grab net target port) as [text|e]; [done|by destruct e]. }
  split; [|done].
  intros pre Hpre. by apply (within_prefix 1 _ 0 pre) in Hw.
Qed.

(** *** The report *)


(** C1. The report of a scan should hold one record for each (target, port)
    pair.  For the target 10.0.0.1 and the ports 22 and 80 the dry run returns
    from the first turn of its loop: the report holds the record of port 22
    alone, one record where two are due; with [dry_run] off there is no
    report at all. *)
Theorem connect_scan_two_ports_one_record net n :
  let report :=
    produced (result (connect_scan net "10.0.0.1" [22; 80] 1 5 true false n)) in
  report = [ScanResult.make "10.0.0.1" 22 "simulated" None None (clock net n)]
  ∧ length report ≠ (length ["10.0.0.1"] * length [22; 80])%nat
  ∧ result (connect_scan net "10.0.0.1" [22; 80] 1 5 false false n) = Ret None.
Proof. repeat split. simpl. lia. Qed.

(** C3. In a dry run every record of the report has the status
    [simulated], no latency and no banner, and the run causes no event but
    readings of the clock: no socket is created, nothing is connected. *)
Theorem connect_scan_dry_run_simulated_no_io
    net target ports timeout concurrency banner n :
  let out := connect_scan net target ports timeout concurrency true banner n in
  Forall (λ r, ScanResult.status r = "simulated"
               ∧ ScanResult.latency_ms r = None
               ∧ ScanResult.banner r = None) (produced (result out))
  ∧ no_io (events out).
Proof.
  destruct ports as [|port rest].
  - rewrite connect_scan_dry_run_nil. split; constructor.
  - rewrite connect_scan_dry_run_cons. split; repeat constructor.
Qed.

(** C5 (as the design states it, refuted).  A port list that holds 70000 is
    not rejected: the dry run returns a record for that port; nor is the empty
    port list: the call returns [None] and raises nothing. *)
Lemma connect_scan_invalid_ports_not_rejected :
  let out := result (connect_scan open_net "10.0.0.1" [70000] 1 5 true false 0%nat) in
  let out' := result (connect_scan open_net "10.0.0.1" [] 1 5 false false 0%nat) in
  ¬ PortUtils.valid_port 70000
  ∧ ¬ raises out
  ∧ produced out = [ScanResult.make "10.0.0.1" 70000 "simulated" None None 0]
  ∧ out' = Ret None.
Proof.
  repeat split; [|by intros []]. unfold PortUtils.valid_port. lia.
Qed.

(** C5 (amended).  [connect_scan] checks none of its arguments and rejects no
    scan: whatever the target, the port list and the options, it returns and
    does not raise; for the empty port list it produces no record, and in a
    dry run its report begins with a simulated record for the first port, be
    that port within 1..65535 or not. *)
Theorem connect_scan_never_rejects
    net target ports timeout concurrency dry_run banner n :
  let out :=
    result (connect_scan net target ports timeout concurrency dry_run banner n) in
  ¬ raises out
  ∧ (ports = [] → produced out = [])
  ∧ (∀ port rest, dry_run = true → ports = port :: rest →
       ∃ r report, produced out = r :: report
                   ∧ ScanResult.port r = port
                   ∧ ScanResult.status r = "simulated").
Proof.
  destruct dry_run; [destruct ports as [|port rest]|]; simpl.
  - repeat split; [by intros []|done].
  - repeat split; [by intros []|done|].
    intros ? ? _ [= <- <-]. by eexists _, _.
  - repeat split; [by intros []|done].
Qed.

Lemma connect_scan_never_rejects_witness :
  ∃ r report,
    produced (result (connect_scan open_net "10.0.0.1" [70000; 22] 1 5 true false 0%nat))
    = r :: report
    ∧ ScanResult.port r = 70000 ∧ ScanResult.status r = "simulated".
Proof.
  apply (proj2 (proj2 (connect_scan_never_rejects
                         open_net "10.0.0.1" [70000; 22] 1 5 true false 0%nat))
           70000 [22]); reflexivity.
Defined.

Example dry_run_descending_ports :
  result (connect_scan open_net "10.0.0.1" [443; 80; 22] 1 5 true false 0%nat)
  = Ret (Some [ScanResult.make "10.0.0.1" 443 "simulated" None None 0]).
Proof. reflexivity. Qed.





End ScannerProofs.

(** * Properties of unique_preserve_order *)

Module UniqueProofs.
Import PortUtils.

Example unique_preserve_order_hosts :
  unique_preserve_order ["b.org"; "a.org"; "b.org"; "c.org"; "a.org"]
  = ["b.org"; "a.org"; "c.org"].
Proof. vm_compute. reflexivity. Qed.

(** The loop only appends to [result], and what it appends is decided by
    [seen] alone. *)
Lemma unique_loop_filter seq : ∀ seen result,
  unique_loop seq seen result
  = result ++ filter (λ x, x ∉ seen) (unique_preserve_order seq).
Proof.
  unfold unique_preserve_order.
  induction seq as [|item rest IH]; intros seen result; simpl.
  - by rewrite app_nil_r.
  - rewrite (bool_decide_eq_false_2 (item ∈ (∅ : gset string))) by set_solver. simpl.
    rewrite (IH ({[item]} ∪ ∅) [item]). simpl.
    case_bool_decide as Hin; simpl.
    + rewrite IH, filter_cons_False by (by intros ?).
      rewrite list_filter_filter.
      f_equal. apply list_filter_iff. set_solver.
    + rewrite IH, filter_cons_True by done.
      rewrite list_filter_filter, <- app_assoc. simpl. do 2 f_equal.
      apply list_filter_iff. set_solver.
Qed.

Lemma unique_preserve_order_cons item rest :
  unique_preserve_order (item :: rest)
  = item :: filter (λ x, x ≠ item) (unique_preserve_order rest).
Proof.
  unfold unique_preserve_order at 1. simpl.
  rewrite (bool_decide_eq_false_2 (item ∈ (∅ : gset string))) by set_solver. simpl.
  rewrite unique_loop_filter. simpl. f_equal.
  apply list_filter_iff. set_solver.
Qed.

Lemma elem_of_unique seq x : x ∈ unique_preserve_order seq ↔ x ∈ seq.
Proof.
  induction seq as [|item rest IH]; [done|].
  rewrite unique_preserve_order_cons, !elem_of_cons, list_elem_of_filter, IH.
  destruct (decide (x = item)); naive_solver.
Qed.

Lemma NoDup_unique seq : NoDup (unique_preserve_order seq).
Proof.
  induction seq as [|item rest IH]; [constructor|].
  rewrite unique_preserve_order_cons. constructor.
  - rewrite list_elem_of_filter. naive_solver.
  - by apply NoDup_filter.
Qed.

Lemma unique_sublist seq : unique_preserve_order seq `sublist_of` seq.
Proof.
  induction seq as [|item rest IH]; [constructor|].
  rewrite unique_preserve_order_cons. apply sublist_skip.
  etrans; [apply sublist_filter|done].
Qed.

Lemma filter_all {A} (P : A → Prop) `{∀ x, Decision (P x)} (l : list A) :
  Forall P l → filter P l = l.
Proof.
  induction 1 as [|x l Hx _ IH]; [done|].
  by rewrite filter_cons_True, IH.
Qed.

Lemma unique_app seq1 seq2 :
  unique_preserve_order (seq1 ++ seq2)
  = unique_preserve_order seq1
    ++ filter (λ x, x ∉ seq1) (unique_preserve_order seq2).
Proof.
  induction seq1 as [|item rest IH]; simpl.
  - rewrite filter_all; [done|]. apply Forall_forall. set_solver.
  - rewrite !unique_preserve_order_cons, IH, filter_app, list_filter_filter.
    simpl. do 2 f_equal. apply list_filter_iff. set_solver.
Qed.

Lemma unique_NoDup_id seq : NoDup seq → unique_preserve_order seq = seq.
Proof.
  induction 1 as [|item rest Hnotin _ IH]; [done|].
  rewrite unique_preserve_order_cons, IH. f_equal.
  apply filter_all, Forall_forall. set_solver.
Qed.

(** X1. The list that [unique_preserve_order] returns has no duplicates and
    holds exactly the items of its argument. *)
Theorem unique_preserve_order_no_duplicates seq :
  NoDup (unique_preserve_order seq)
  ∧ ∀ x, x ∈ unique_preserve_order seq ↔ x ∈ seq.
Proof. split; [apply NoDup_unique|intros x; apply elem_of_unique]. Qed.


(** X3. [unique_preserve_order] returns its argument unchanged exactly when
    the argument has no duplicates, and applying it twice is the same as
    applying it once. *)
Theorem unique_preserve_order_fixed_points seq :
  (unique_preserve_order seq = seq ↔ NoDup seq)
  ∧ unique_preserve_order (unique_preserve_order seq)
    = unique_preserve_order seq.
Proof.
  split; [split|].
  - intros <-. apply NoDup_unique.
  - apply unique_NoDup_id.
  - apply unique_NoDup_id, NoDup_unique.
Qed.

End UniqueProofs.

(** * Further properties of parse_ports *)

Module ParsePortsProofs.
Import PortUtils PortUtilsProofs.

Lemma split_app sep a b :
  PyStr.split sep (a +:+ String sep b) = PyStr.split sep a ++ PyStr.split sep b.
Proof.
  induction a as [|c a IH]; simpl.
  - by rewrite Ascii.eqb_refl.
  - destruct (Ascii.eqb c sep); [by rewrite IH|].
    rewrite IH. pose proof (split_nonempty sep a).
    by destruct (PyStr.split sep a).
Qed.

Lemma split_no_sep sep s : PyStr.contains sep s = false → PyStr.split sep s = [s].
Proof.
  induction s as [|c s IH]; simpl; [done|].
  destruct (Ascii.eqb c sep); [done|]. intros Hs. by rewrite IH.
Qed.

Lemma split_single sep s : length (PyStr.split sep s) = 1%nat → PyStr.contains sep s = false.
Proof.
  induction s as [|c s IH]; simpl; [done|].
  destruct (Ascii.eqb c sep).
  - pose proof (split_nonempty sep s). destruct (PyStr.split sep s); simpl; [done|lia].
  - pose proof (split_nonempty sep s). destruct (PyStr.split sep s) eqn:E; [done|].
    simpl in *. done.
Qed.

Lemma digits_no c s : ∀ acc seen v,
  PyStr.digit c = None → c ≠ "_"%char →
  PyStr.digits s acc seen = Some v → PyStr.contains c s = false.
Proof.
  induction s as [|a s IH]; intros acc seen v Hd Hu; simpl; [done|].
  destruct (Ascii.eqb_spec a c) as [->|Hne].
  - rewrite Hd. destruct (Ascii.eqb_spec c "_"); [done|]. done.
  - destruct (PyStr.digit a); [by eauto|].
    destruct (Ascii.eqb a "_" && seen); [by eauto|done].
Qed.

Lemma digit_bound a d : PyStr.digit a = Some d → 0 <= d <= 9.
Proof. unfold PyStr.digit. case_match; [|done]. intros [= <-]. 
  apply andb_prop in H as [?%Nat.leb_le ?%Nat.leb_le]. lia. Qed.

Lemma digits_nonneg s : ∀ acc seen v,
  0 <= acc → PyStr.digits s acc seen = Some v → 0 <= v.
Proof.
  induction s as [|a s IH]; intros acc seen v Hacc; simpl.
  - destruct seen; [|done]. by intros [= <-].
  - destruct (PyStr.digit a) as [d|] eqn:Hd.
    + apply digit_bound in Hd. apply IH. lia.
    + destruct (Ascii.eqb a "_" && seen); [by apply IH|done].
Qed.

Lemma contains_lstrip c s :
  PyStr.isspace c = false → PyStr.contains c (PyStr.lstrip s) = PyStr.contains c s.
Proof.
  intros Hc. induction s as [|a s IH]; simpl; [done|].
  destruct (PyStr.isspace a) eqn:Ha; [|done].
  rewrite IH. destruct (Ascii.eqb_spec a c) as [->|]; [congruence|done].
Qed.

Lemma contains_rstrip c s :
  PyStr.isspace c = false → PyStr.contains c (PyStr.rstrip s) = PyStr.contains c s.
Proof.
  intros Hc. induction s as [|a s IH]; simpl; [done|].
  destruct (PyStr.rstrip s) as [|b r] eqn:E.
  - destruct (PyStr.isspace a) eqn:Ha; simpl.
    + rewrite <- IH. destruct (Ascii.eqb_spec a c) as [->|]; [congruence|done].
    + by rewrite <- IH.
  - simpl in *. by rewrite IH.
Qed.

Lemma contains_strip c s :
  PyStr.isspace c = false → PyStr.contains c (PyStr.strip s) = PyStr.contains c s.
Proof.
  intros. unfold PyStr.strip. by rewrite contains_rstrip, contains_lstrip.
Qed.

Lemma contains_int_lstrip c s :
  PyStr.int_space c = false →
  PyStr.contains c (PyStr.int_lstrip s) = PyStr.contains c s.
Proof.
  intros Hc. induction s as [|a s IH]; simpl; [done|].
  destruct (PyStr.int_space a) eqn:Ha; [|done].
  rewrite IH. destruct (Ascii.eqb_spec a c) as [->|]; [congruence|done].
Qed.

Lemma contains_int_rstrip c s :
  PyStr.int_space c = false →
  PyStr.contains c (PyStr.int_rstrip s) = PyStr.contains c s.
Proof.
  intros Hc. induction s as [|a s IH]; simpl; [done|].
  destruct (PyStr.int_rstrip s) as [|b r] eqn:E.
  - destruct (PyStr.int_space a) eqn:Ha; simpl.
    + rewrite <- IH. destruct (Ascii.eqb_spec a c) as [->|]; [congruence|done].
    + by rewrite <- IH.
  - simpl in *. by rewrite IH.
Qed.

Lemma literal_digits r v :
  PyStr.literal r = Some v → PyStr.digits r 0 false = Some v.
Proof. unfold PyStr.literal. by case_match. Qed.

Lemma int_pos_no_dash t q :
  PyStr.int t = Some q → 1 <= q → PyStr.contains "-" t = false.
Proof.
  unfold PyStr.int. intros Hint Hq.
  rewrite <- (contains_int_lstrip "-" t), <- (contains_int_rstrip "-") by done.
  destruct (PyStr.int_rstrip (PyStr.int_lstrip t)) as [|a r]; [done|].
  destruct (Ascii.eqb_spec a "+") as [->|Hp].
  { simpl. apply literal_digits in Hint. by eapply digits_no. }
  destruct (Ascii.eqb_spec a "-") as [->|Hm].
  { destruct (PyStr.literal r) as [v|] eqn:E; [|done].
    apply literal_digits, digits_nonneg in E; [|done].
    simpl in Hint. injection Hint as <-. lia. }
  assert (PyStr.digits (String a r) 0 false = Some q) as Hd.
  { apply literal_digits.
    revert Hint. destruct a as [[] [] [] [] [] [] [] []]; try done. }
  by eapply digits_no.
Qed.

Lemma good_token_covers t : good_token t ↔ ∃ p, covers t p.
Proof.
  unfold good_token, covers, valid_port. split.
  - intros [(p & ? & ?)|(a & b & x & y & ? & ? & ? & ? & ? & ?)].
    + exists p. by left.
    + exists x. right. exists a, b, x, y. repeat split; auto; lia.
  - intros [p [[? ?]|(a & b & x & y & ? & ? & ? & ? & ? & ?)]].
    + left. by exists p.
    + right. exists a, b, x, y. repeat split; auto; lia.
Qed.

(** A token that holds one dash is cut at it in one way only. *)
Lemma split_dash_unique t a b a' b' x y :
  PyStr.split "-" t = [a; b] →
  t = a' +:+ "-" +:+ b' →
  PyStr.int a' = Some x → PyStr.int b' = Some y → 1 <= x → 1 <= y →
  a' = a ∧ b' = b.
Proof.
  intros Hs -> Ha Hb Hx Hy.
  apply int_pos_no_dash in Ha; [|done]. apply int_pos_no_dash in Hb; [|done].
  change (a' +:+ "-" +:+ b') with (a' +:+ String "-" b') in Hs.
  rewrite split_app, (split_no_sep _ _ Ha), (split_no_sep _ _ Hb) in Hs.
  by injection Hs as -> ->.
Qed.

Lemma parse_token_covers token X X' :
  parse_token token X = Ret X' →
  ∀ p, p ∈ X' ↔ p ∈ X ∨ covers token p.
Proof.
  unfold parse_token, covers, valid_port, range.
  destruct (PyStr.contains "-" token) eqn:Hdash.
  - destruct (PyStr.split "-" token) as [|a [|b [|c parts]]] eqn:E;
      simpl; try done.
    destruct (PyStr.int a) as [x|] eqn:Ea; [|done].
    destruct (PyStr.int b) as [y|] eqn:Eb; [|done].
    destruct ((x <? 1) || (y >? 65535) || (x >? y)) eqn:Hb; [done|].
    intros [= <-] p. rewrite elem_of_union, elem_of_list_to_set, elem_of_seqZ.
    split.
    + intros [?|?]; [by left|right; right].
      exists a, b, x, y. apply split_two in E. repeat split; auto; lia.
    + intros [?|[[Hint ?]|(a' & b' & x' & y' & Ht & Ha' & Hb' & ? & ? & ?)]];
        [by left| |].
      * apply int_pos_no_dash in Hint; [congruence|lia].
      * destruct (split_dash_unique token a b a' b' x' y') as [-> ->];
          [done..|lia|lia|].
        right. assert (x' = x) by congruence. assert (y' = y) by congruence. lia.
  - destruct (PyStr.int token) as [q|] eqn:Eq; [|done].
    destruct ((q <? 1) || (q >? 65535)) eqn:Hb; [done|].
    intros [= <-] p. rewrite elem_of_union, elem_of_singleton. split.
    + intros [? | ->]; [by left|right; left]. split; [done|lia].
    + intros [?|[[Hint ?]|(a' & b' & x' & y' & -> & _)]]; [by left| |].
      * right. congruence.
      * change (a' +:+ "-" +:+ b') with (a' +:+ String "-" b') in Hdash.
        by rewrite contains_app in Hdash.
Qed.

Lemma parse_token_good token X :
  good_token token → ∃ X', parse_token token X = Ret X'.
Proof.
  unfold parse_token, good_token, valid_port.
  intros [(p & Hint & Hp)|(a & b & x & y & -> & Ha & Hb & Hx & Hy & Hxy)].
  - rewrite (int_pos_no_dash _ _ Hint) by lia. rewrite Hint.
    destruct ((p <? 1) || (p >? 65535)) eqn:Hb; [lia|]. eauto.
  - change (a +:+ "-" +:+ b) with (a +:+ String "-" b).
    rewrite contains_app, split_app.
    rewrite (split_no_sep _ _ (int_pos_no_dash _ _ Ha ltac:(lia))).
    rewrite (split_no_sep _ _ (int_pos_no_dash _ _ Hb ltac:(lia))).
    simpl. rewrite Ha, Hb.
    destruct ((x <? 1) || (y >? 65535) || (x >? y)) eqn:E; [lia|]. eauto.
Qed.

Lemma parse_tokens_covers tokens : ∀ X X',
  parse_tokens tokens X = Ret X' →
  ∀ p, p ∈ X' ↔ p ∈ X ∨ ∃ t, t ∈ tokens ∧ covers t p.
Proof.
  induction tokens as [|token rest IH]; intros X X'; simpl.
  - intros [= <-] p. set_solver.
  - destruct (parse_token token X) as [X1|] eqn:E1; [|done].
    intros E p. rewrite (IH _ _ E), (parse_token_covers _ _ _ E1).
    set_solver.
Qed.

Lemma parse_tokens_good tokens : ∀ X,
  Forall good_token tokens → ∃ X', parse_tokens tokens X = Ret X'.
Proof.
  induction tokens as [|token rest IH]; intros X Hgood; simpl; [by eauto|].
  apply Forall_cons in Hgood as [Ht Hrest].
  destruct (parse_token_good token X Ht) as [X1 ->]. by apply IH.
Qed.

Lemma parse_ports_nonempty_spec port_spec :
  port_spec ≠ EmptyString →
  parse_ports (Some port_spec)
  = match parse_tokens (split_by_comma port_spec) ∅ with
    | Ret final_ports => Ret (sorted final_ports)
    | Raise e => Raise e
    end.
Proof. by destruct port_spec. Qed.

Lemma parse_ports_good_returns port_spec :
  port_spec ≠ EmptyString →
  Forall good_token (split_by_comma port_spec) →
  ∃ ports, parse_ports (Some port_spec) = Ret ports.
Proof.
  intros Hne Hgood. rewrite parse_ports_nonempty_spec by done.
  destruct (parse_tokens_good _ ∅ Hgood) as [X ->]. eauto.
Qed.

Lemma parse_ports_elem_of port_spec ports :
  port_spec ≠ EmptyString →
  parse_ports (Some port_spec) = Ret ports →
  ∀ p, p ∈ ports ↔ ∃ token, token ∈ split_by_comma port_spec ∧ covers token p.
Proof.
  intros Hne. rewrite parse_ports_nonempty_spec by done.
  destruct (parse_tokens _ ∅) as [X|] eqn:E; [|done].
  intros [= <-] p. rewrite elem_of_sorted, (parse_tokens_covers _ _ _ E).
  set_solver.
Qed.

Lemma parse_ports_Ret_nonempty port_spec ports :
  parse_ports port_spec = Ret ports → ports ≠ [].
Proof.
  destruct port_spec as [s|]; [|by intros [= <-]].
  destruct (decide (s = EmptyString)) as [->|Hne]; [by intros [= <-]|].
  intros E ->.
  pose proof (parse_ports_elem_of s [] Hne E) as Hcov.
  apply parse_ports_Ret in E as [Hgood _]; [|done].
  unfold split_by_comma in *.
  pose proof (split_nonempty "," s).
  destruct (PyStr.split "," s) as [|piece pieces]; [done|].
  apply Forall_cons in Hgood as [[p Hp]%good_token_covers _].
  assert (p ∈ @nil Z) as Hin; [|by apply elem_of_nil in Hin].
  apply Hcov. exists (PyStr.strip piece). split; [left|done].
Qed.

(** X4. [parse_ports] returns a list for a non-empty specification exactly
    when every one of its comma-separated tokens is a valid port or a
    non-empty range of valid ports; otherwise it raises. *)
Theorem parse_ports_accepts_iff_tokens_good port_spec :
  port_spec ≠ EmptyString →
  (∃ ports, parse_ports (Some port_spec) = Ret ports)
  ↔ Forall good_token (split_by_comma port_spec).
Proof.
  intros Hne. split.
  - intros [ports E]. by apply parse_ports_Ret in E as [? _].
  - by apply parse_ports_good_returns.
Qed.

(** X5. The list that [parse_ports] returns holds exactly the ports that
    the tokens stand for: a port is in the list if and only if some token is
    that port or a range that includes it. *)
Theorem parse_ports_covered_ports port_spec ports :
  port_spec ≠ EmptyString →
  parse_ports (Some port_spec) = Ret ports →
  ∀ p, p ∈ ports ↔ ∃ token, token ∈ split_by_comma port_spec ∧ covers token p.
Proof. apply parse_ports_elem_of. Qed.

(** X6. [parse_ports] never returns an empty list, whatever its argument:
    it raises, or returns at least one port. *)
Theorem parse_ports_never_empty port_spec ports :
  parse_ports port_spec = Ret ports → ports ≠ [].
Proof. apply parse_ports_Ret_nonempty. Qed.

Lemma split_by_comma_app s1 s2 :
  split_by_comma (s1 +:+ "," +:+ s2) = split_by_comma s1 ++ split_by_comma s2.
Proof.
  unfold split_by_comma.
  change (s1 +:+ "," +:+ s2) with (s1 +:+ String "," s2).
  by rewrite split_app, fmap_app.
Qed.

Lemma parse_tokens_app tokens1 tokens2 : ∀ X,
  parse_tokens (tokens1 ++ tokens2) X
  = match parse_tokens tokens1 X with
    | Ret X1 => parse_tokens tokens2 X1
    | Raise e => Raise e
    end.
Proof.
  induction tokens1 as [|token rest IH]; intros X; simpl; [done|].
  by destruct (parse_token token X).
Qed.

(** The ports that a run of the loop adds do not depend on the ports that
    were found before. *)
Lemma parse_tokens_union tokens X X' :
  parse_tokens tokens X = Ret X' ↔
  ∃ Y, parse_tokens tokens ∅ = Ret Y ∧ X' = X ∪ Y.
Proof.
  split.
  - intros E. pose proof (parse_tokens_Ret _ _ _ E) as [Hgood _].
    destruct (parse_tokens_good _ ∅ Hgood) as [Y EY]. exists Y. split; [done|].
    apply set_eq. intros p.
    rewrite (parse_tokens_covers _ _ _ E), elem_of_union,
      (parse_tokens_covers _ _ _ EY). set_solver.
  - intros (Y & EY & ->). pose proof (parse_tokens_Ret _ _ _ EY) as [Hgood _].
    destruct (parse_tokens_good _ X Hgood) as [X' E]. rewrite E. f_equal.
    apply set_eq. intros p.
    rewrite (parse_tokens_covers _ _ _ E), elem_of_union,
      (parse_tokens_covers _ _ _ EY). set_solver.
Qed.

Lemma list_to_set_sorted X : list_to_set (sorted X) = X.
Proof. apply set_eq. intros p. by rewrite elem_of_list_to_set, elem_of_sorted. Qed.

Lemma append_nonempty s1 s2 : s1 +:+ "," +:+ s2 ≠ EmptyString.
Proof. by destruct s1. Qed.

(** X7. Two specifications joined by a comma are accepted exactly when both
    are, and then give the sorted union of the two lists; in particular the
    order in which they are joined does not change the list. *)
Theorem parse_ports_comma s1 s2 ports :
  s1 ≠ EmptyString → s2 ≠ EmptyString →
  (parse_ports (Some (s1 +:+ "," +:+ s2)) = Ret ports
   ↔ ∃ ports1 ports2,
       parse_ports (Some s1) = Ret ports1
       ∧ parse_ports (Some s2) = Ret ports2
       ∧ ports = sorted (list_to_set ports1 ∪ list_to_set ports2))
  ∧ (parse_ports (Some (s1 +:+ "," +:+ s2)) = Ret ports
     ↔ parse_ports (Some (s2 +:+ "," +:+ s1)) = Ret ports).
Proof.
  intros H1 H2.
  assert (∀ s1 s2 ports, s1 ≠ EmptyString → s2 ≠ EmptyString →
    parse_ports (Some (s1 +:+ "," +:+ s2)) = Ret ports
    ↔ ∃ ports1 ports2,
       parse_ports (Some s1) = Ret ports1
       ∧ parse_ports (Some s2) = Ret ports2
       ∧ ports = sorted (list_to_set ports1 ∪ list_to_set ports2)) as Hunion.
  { clear. intros s1 s2 ports H1 H2.
    rewrite !parse_ports_nonempty_spec by auto using append_nonempty.
    rewrite split_by_comma_app, parse_tokens_app. split.
    - destruct (parse_tokens (split_by_comma s1) ∅) as [X1|]; [|done].
      destruct (parse_tokens (split_by_comma s2) X1) as [X|] eqn:E; [|done].
      intros [= <-]. apply parse_tokens_union in E as (X2 & -> & ->).
      exists (sorted X1), (sorted X2). by rewrite !list_to_set_sorted.
    - intros (ports1 & ports2 & E1 & E2 & ->).
      destruct (parse_tokens (split_by_comma s1) ∅) as [X1|]; [|done].
      destruct (parse_tokens (split_by_comma s2) ∅) as [X2|] eqn:E; [|done].
      injection E1 as <-. injection E2 as <-.
      rewrite (proj2 (parse_tokens_union _ X1 (X1 ∪ X2))) by eauto.
      by rewrite !list_to_set_sorted. }
  split; [by apply Hunion|].
  rewrite !Hunion by done. split.
  - intros (l1 & l2 & ? & ? & ->). exists l2, l1.
    by rewrite (comm_L (∪) (list_to_set l2)).
  - intros (l2 & l1 & ? & ? & ->). exists l1, l2.
    by rewrite (comm_L (∪) (list_to_set l1)).
Qed.

(** *** Decimal renderings *)

Lemma digit_pretty_N_char d :
  (d < 10)%N → PyStr.digit (pretty_N_char d) = Some (Z.of_N d).
Proof.
  intros Hd.
  assert (d ∈ [0; 1; 2; 3; 4; 5; 6; 7; 8; 9]%N) as Hin.
  { rewrite !elem_of_cons. lia. }
  rewrite !elem_of_cons, elem_of_nil in Hin.
  destruct Hin as [->|[->|[->|[->|[->|[->|[->|[->|[->|[->|[]]]]]]]]]]]; done.
Qed.

Lemma digits_pretty_N_go x :
  ∃ k, 0 <= k ∧ ∀ s acc seen,
    PyStr.digits (pretty_N_go x s) acc seen
    = PyStr.digits s (acc * 10 ^ k + Z.of_N x) (seen || (0 <? x)%N).
Proof.
  induction (N.lt_wf_0 x) as [x _ IH].
  destruct (decide (x = 0%N)) as [->|Hx].
  - exists 0. split; [done|]. intros s acc seen.
    rewrite pretty_N_go_0, orb_false_r. f_equal. lia.
  - destruct (IH (x `div` 10)%N) as (k & Hk & IHk).
    { apply N.div_lt; lia. }
    exists (k + 1). split; [lia|]. intros s acc seen.
    rewrite pretty_N_go_step, IHk by lia. simpl.
    rewrite digit_pretty_N_char by (apply N.mod_lt; lia).
    assert ((0 <? x)%N = true) as -> by (apply N.ltb_lt; lia).
    rewrite orb_true_r. f_equal.
    rewrite Z.pow_add_r, Z.pow_1_r by lia.
    pose proof (N.div_mod x 10 ltac:(lia)) as Hdm.
    apply (f_equal Z.of_N) in Hdm. rewrite N2Z.inj_add, N2Z.inj_mul in Hdm.
    change (Z.of_N 10) with 10 in Hdm. lia.
Qed.

Lemma all_digits_pretty_N_go x : ∀ s,
  PyStr.all_digits s = true → PyStr.all_digits (pretty_N_go x s) = true.
Proof.
  induction (N.lt_wf_0 x) as [x _ IH]. intros s Hs.
  destruct (decide (x = 0%N)) as [->|Hx]; [by rewrite pretty_N_go_0|].
  rewrite pretty_N_go_step by lia. apply IH; [apply N.div_lt; lia|].
  simpl. by rewrite digit_pretty_N_char by (apply N.mod_lt; lia).
Qed.

Lemma digit_not_space a d : PyStr.digit a = Some d → PyStr.isspace a = false.
Proof. by destruct a as [[] [] [] [] [] [] [] []]. Qed.

Lemma lstrip_digits s : PyStr.all_digits s = true → PyStr.lstrip s = s.
Proof.
  destruct s as [|a s]; simpl; [done|].
  destruct (PyStr.digit a) eqn:Ha; [|done]. by rewrite (digit_not_space _ _ Ha).
Qed.

Lemma rstrip_digits s : PyStr.all_digits s = true → PyStr.rstrip s = s.
Proof.
  induction s as [|a s IH]; simpl; [done|].
  destruct (PyStr.digit a) eqn:Ha; [|done]. intros Hs. rewrite IH by done.
  destruct s; [|done]. by rewrite (digit_not_space _ _ Ha).
Qed.

Lemma contains_digits c s :
  PyStr.all_digits s = true → PyStr.digit c = None → PyStr.contains c s = false.
Proof.
  intros Hs Hc. induction s as [|a s IH]; simpl in *; [done|].
  destruct (PyStr.digit a) eqn:Ha; [|done].
  destruct (Ascii.eqb_spec a c) as [->|]; [congruence|auto].
Qed.

Lemma pretty_pos p :
  1 <= p → ∃ a r, pretty p = String a r ∧ PyStr.all_digits (pretty p) = true
                  ∧ PyStr.digits (pretty p) 0 false = Some p.
Proof.
  intros Hp. destruct p as [|q|q]; [lia| |lia].
  change (pretty (Z.pos q)) with (pretty_N_go (N.pos q) EmptyString).
  destruct (digits_pretty_N_go (N.pos q)) as (k & _ & Hk).
  assert (PyStr.all_digits (pretty_N_go (N.pos q) EmptyString) = true) as Hall
    by by apply all_digits_pretty_N_go.
  assert (PyStr.digits (pretty_N_go (N.pos q) EmptyString) 0 false
          = Some (Z.pos q)) as Hd by (by rewrite Hk).
  destruct (pretty_N_go (N.pos q) EmptyString) as [|a r] eqn:E; [done|].
  by exists a, r.
Qed.

Lemma digit_not_int_space a d :
  PyStr.digit a = Some d → PyStr.int_space a = false.
Proof. by destruct a as [[] [] [] [] [] [] [] []]. Qed.

Lemma int_lstrip_digits s :
  PyStr.all_digits s = true → PyStr.int_lstrip s = s.
Proof.
  destruct s as [|a s]; simpl; [done|].
  destruct (PyStr.digit a) eqn:Ha; [|done].
  by rewrite (digit_not_int_space _ _ Ha).
Qed.

Lemma int_rstrip_digits s :
  PyStr.all_digits s = true → PyStr.int_rstrip s = s.
Proof.
  induction s as [|a s IH]; simpl; [done|].
  destruct (PyStr.digit a) eqn:Ha; [|done]. intros Hs. rewrite IH by done.
  destruct s; [|done]. by rewrite (digit_not_int_space _ _ Ha).
Qed.

Lemma count_digits_length s : (PyStr.count_digits s ≤ String.length s)%nat.
Proof.
  induction s as [|a s IH]; simpl; [done|]. destruct (PyStr.digit a); lia.
Qed.

(** A number below [10 ^ k] is written with at most [k] digits. *)
Lemma length_pretty_N_go k : ∀ x s,
  (x < 10 ^ N.of_nat k)%N →
  (String.length (pretty_N_go x s) ≤ k + String.length s)%nat.
Proof.
  induction k as [|k IH]; intros x s Hx.
  - assert (x = 0%N) as -> by (simpl in Hx; lia). by rewrite pretty_N_go_0.
  - destruct (decide (x = 0%N)) as [->|Hne].
    { rewrite pretty_N_go_0. lia. }
    rewrite pretty_N_go_step by lia.
    etrans; [apply IH|simpl; lia].
    rewrite Nat2N.inj_succ, N.pow_succ_r' in Hx.
    apply N.Div0.div_lt_upper_bound. lia.
Qed.

Lemma count_digits_pretty p :
  1 <= p <= 65535 → (PyStr.count_digits (pretty p) ≤ 5)%nat.
Proof.
  intros Hp. destruct p as [|q|q]; [lia| |lia].
  change (pretty (Z.pos q)) with (pretty_N_go (N.pos q) EmptyString).
  etrans; [apply count_digits_length|].
  etrans; [apply (length_pretty_N_go 5)|done].
  change (10 ^ N.of_nat 5)%N with 100000%N. lia.
Qed.

Lemma int_pretty p : 1 <= p <= 65535 → PyStr.int (pretty p) = Some p.
Proof.
  intros Hp.
  destruct (pretty_pos p ltac:(lia)) as (a & r & E & Hall & Hd).
  assert (PyStr.literal (pretty p) = Some p) as Hl.
  { unfold PyStr.literal.
    assert ((PyStr.count_digits (pretty p) <=? PyStr.max_str_digits)%nat = true)
      as ->; [|done].
    apply Nat.leb_le. pose proof (count_digits_pretty p Hp).
    unfold PyStr.max_str_digits. lia. }
  unfold PyStr.int.
  rewrite int_lstrip_digits, int_rstrip_digits by done.
  pose proof (contains_digits "+" _ Hall eq_refl) as Hplus.
  pose proof (contains_digits "-" _ Hall eq_refl) as Hminus.
  rewrite E in *. simpl in Hplus, Hminus.
  destruct (Ascii.eqb_spec a "+") as [->|]; [done|].
  destruct (Ascii.eqb_spec a "-") as [->|]; [done|].
  revert Hl. by destruct a as [[] [] [] [] [] [] [] []].
Qed.

Lemma strip_pretty p : 1 <= p → PyStr.strip (pretty p) = pretty p.
Proof.
  intros Hp. destruct (pretty_pos p Hp) as (a & r & E & Hall & Hd).
  unfold PyStr.strip. by rewrite lstrip_digits, rstrip_digits.
Qed.

Lemma contains_pretty c p :
  1 <= p → PyStr.digit c = None → PyStr.contains c (pretty p) = false.
Proof.
  intros Hp Hc. destruct (pretty_pos p Hp) as (a & r & E & Hall & Hd).
  by apply contains_digits.
Qed.

Lemma split_join sep pieces :
  pieces ≠ [] →
  Forall (λ piece, PyStr.contains sep piece = false) pieces →
  PyStr.split sep (PyStr.join sep pieces) = pieces.
Proof.
  intros Hne Hall. induction Hall as [|piece rest Hp Hrest IH]; [done|].
  destruct rest as [|piece' rest].
  - by apply split_no_sep.
  - change (PyStr.join sep (piece :: piece' :: rest))
      with (piece +:+ String sep (PyStr.join sep (piece' :: rest))).
    rewrite split_app, (split_no_sep _ _ Hp), IH; done.
Qed.

Lemma render_tokens ports :
  ports ≠ [] → Forall valid_port ports →
  render ports ≠ EmptyString
  ∧ split_by_comma (render ports) = pretty <$> ports.
Proof.
  intros Hne Hvalid. unfold render. split.
  - destruct ports as [|p rest]; [done|].
    apply Forall_cons in Hvalid as [Hp _].
    destruct (pretty_pos p ltac:(unfold valid_port in Hp; lia)) as (a & r & E & _).
    simpl. rewrite E. by destruct rest.
  - unfold split_by_comma. rewrite split_join.
    + rewrite <- list_fmap_compose. apply Forall_fmap_ext_1.
      apply (Forall_impl _ _ _ Hvalid). intros p Hp. simpl.
      apply strip_pretty. unfold valid_port in Hp. lia.
    + by destruct ports.
    + apply Forall_fmap, (Forall_impl _ _ _ Hvalid). intros p Hp. simpl.
      apply contains_pretty; [unfold valid_port in Hp; lia|done].
Qed.

Lemma covers_pretty q p : valid_port q → covers (pretty q) p ↔ p = q.
Proof.
  intros Hq. unfold covers. rewrite int_pretty by done.
  split.
  - intros [[[= ->] _]|(a & b & x & y & E & _)]; [done|].
    apply (f_equal (PyStr.contains "-")) in E.
    change (a +:+ "-" +:+ b) with (a +:+ String "-" b) in E.
    rewrite contains_app, contains_pretty in E;
      [done|unfold valid_port in Hq; lia|done].
  - intros ->. by left.
Qed.

Lemma parse_ports_render ports :
  ports ≠ [] → Forall valid_port ports →
  parse_ports (Some (render ports))
  = Ret (sorted (list_to_set ports)).
Proof.
  intros Hne Hvalid.
  destruct (render_tokens ports Hne Hvalid) as [Hs Htokens].
  assert (Forall good_token (split_by_comma (render ports)))
    as Hgood.
  { rewrite Htokens. apply Forall_fmap, (Forall_impl _ _ _ Hvalid).
    intros p Hp. simpl. apply good_token_covers. exists p.
    by apply covers_pretty. }
  apply parse_ports_good_returns in Hgood as [l E]; [|done].
  rewrite E. f_equal.
  pose proof (parse_ports_elem_of _ _ Hs E) as Hcov.
  apply parse_ports_Ret in E as (_ & Hsorted & Hnodup & _); [|done].
  apply (Sorted_unique Z.le); [done|apply sorted_Sorted|].
  apply NoDup_Permutation; [done|apply sorted_NoDup|].
  intros p. rewrite Hcov, elem_of_sorted, elem_of_list_to_set, Htokens.
  setoid_rewrite list_elem_of_fmap. split.
  - intros (t & (q & -> & Hq) & Hc). rewrite Forall_forall in Hvalid.
    apply covers_pretty in Hc as ->; auto.
  - intros Hp. exists (pretty p). split; [by exists p|].
    rewrite Forall_forall in Hvalid. apply covers_pretty; auto.
Qed.

(** X8. [parse_ports] reads back the usual text of any non-empty list of
    valid ports: it returns these ports, sorted and without duplicates. *)
Theorem parse_ports_round_trip ports :
  ports ≠ [] → Forall valid_port ports →
  parse_ports (Some (render ports))
  = Ret (sorted (list_to_set ports)).
Proof. apply parse_ports_render. Qed.

(** X9. Whatever [parse_ports] returns, it returns again when given the
    text of that list: parsing a rendered result changes nothing. *)
Theorem parse_ports_reparse port_spec ports :
  parse_ports port_spec = Ret ports →
  parse_ports (Some (render ports)) = Ret ports.
Proof.
  intros E.
  assert (Sorted Z.le ports ∧ NoDup ports ∧ Forall valid_port ports) as (Hs & Hn & Hv).
  { destruct port_spec as [s|]; [destruct (decide (s = EmptyString)) as [->|Hne]|].
    - injection E as <-. vm_compute. repeat split; repeat constructor; set_solver by lia.
    - by apply parse_ports_Ret in E as (_ & ?).
    - injection E as <-. repeat split; repeat constructor; set_solver by lia. }
  rewrite parse_ports_render; [|by eapply parse_ports_Ret_nonempty|done].
  f_equal. apply (Sorted_unique Z.le); [apply sorted_Sorted|done|].
  apply NoDup_Permutation; [apply sorted_NoDup|done|].
  intros p. by rewrite elem_of_sorted, elem_of_list_to_set.
Qed.

Lemma parse_ports_accepts_iff_tokens_good_witness :
  (∃ ports, parse_ports (Some "22,80-82") = Ret ports)
  ↔ Forall good_token (split_by_comma "22,80-82").
Proof.
  apply (parse_ports_accepts_iff_tokens_good "22,80-82"). discriminate.
Defined.

Lemma parse_ports_covered_ports_witness :
  81 ∈ [22; 80; 81] ↔
  ∃ token, token ∈ split_by_comma "22,80-81" ∧ covers token 81.
Proof.
  apply (parse_ports_covered_ports "22,80-81" [22; 80; 81]);
    [discriminate | vm_compute; reflexivity].
Defined.

Lemma parse_ports_never_empty_witness :
  parse_ports (Some "22") = Ret [22] ∧ [22] ≠ @nil Z.
Proof.
  assert (parse_ports (Some "22") = Ret [22]) as E by (vm_compute; reflexivity).
  split; [exact E|]. exact (parse_ports_never_empty (Some "22") [22] E).
Defined.

Lemma parse_ports_comma_witness :
  parse_ports (Some ("80" +:+ "," +:+ "22")) = Ret [22; 80]
  ↔ parse_ports (Some ("22" +:+ "," +:+ "80")) = Ret [22; 80].
Proof.
  apply (proj2 (parse_ports_comma "80" "22" [22; 80]
                  ltac:(discriminate) ltac:(discriminate))).
Defined.

Lemma parse_ports_round_trip_witness :
  parse_ports (Some (render [80; 22; 80]))
  = Ret (sorted (list_to_set [80; 22; 80])).
Proof.
  apply (parse_ports_round_trip [80; 22; 80]); [discriminate|].
  repeat constructor; unfold valid_port; lia.
Defined.

Lemma parse_ports_reparse_witness :
  parse_ports (Some (render [22; 80; 81])) = Ret [22; 80; 81].
Proof.
  apply (parse_ports_reparse (Some "80-81,22") [22; 80; 81]).
  vm_compute. reflexivity.
Defined.

End ParsePortsProofs.

(** * Further properties of worker and connect_scan *)

Module WorkerProofs.
Import Scanner ScannerProofs.

(** X10. Whatever the network does, [worker] reaches its [return] with one
    of four outcomes: [open] with a latency; [filtered] or [closed] with
    neither latency nor banner; [error] with no latency and a text as banner. *)
Theorem worker_locals_shape net target timeout banner port n :
  ∃ l, result (worker_locals net target timeout banner port n) = Ret l
       ∧ ((status l = "open" ∧ is_Some (latency l))
          ∨ (status l = "filtered" ∧ latency l = None ∧ banner_text l = None)
          ∨ (status l = "closed" ∧ latency l = None ∧ banner_text l = None)
          ∨ (status l = "error" ∧ latency l = None ∧ is_Some (banner_text l))).
Proof.
  run.
  destruct (open_socket net) as [e|]; [destruct e; eauto 10|].
  destruct ((timeout <? - max_timeout) || (max_timeout <? timeout));
    [eauto 10|].
  destruct (timeout <? 0); [eauto 10|].
  destruct (connect net target port) as [e|]; [destruct e; eauto 10|].
  destruct banner; [|eauto 10].
  destruct (banner_grab net target port) as [text|e]; [eauto 10|destruct e; eauto 10].
Qed.

(** X11. The worker holds the status [open] exactly when its socket is
    created, [settimeout] accepts the timeout, the connection is established
    and, where a banner is asked for, [banner_grab] returns.  It then holds,
    as latency, a thousand times the difference of the clock readings taken
    around [connect], and as banner what [banner_grab] returned, or nothing;
    without [banner] it has closed and released its socket.  In every other
    case, a socket that cannot be created and a timeout out of range among
    them, the status is not [open]. *)
Theorem worker_open_port net target timeout banner port n :
  ∃ l,
    result (worker_locals net target timeout banner port n) = Ret l
    ∧ (status l = "open" ↔
         open_socket net = None
         ∧ 0 <= timeout <= max_timeout
         ∧ connect net target port = None
         ∧ (banner = true → ∃ text, banner_grab net target port = Ret text))
    ∧ (status l = "open" →
         latency l = Some ((clock net (S (S n)) - clock net (S n)) * 1000)
         ∧ (∀ text, banner = true → banner_grab net target port = Ret text →
              banner_text l = text)
         ∧ (banner = false →
              banner_text l = None
              ∧ events (worker_locals net target timeout banner port n)
                = [ev_clock; ev_socket None; ev_settimeout timeout; ev_clock;
                   ev_connect target port None; ev_clock; ev_close; ev_exit])).
Proof.
  pose proof (settimeout_range timeout) as Hrange.
  run.
  destruct (open_socket net) as [e|].
  { destruct e; eexists; (split; [done|]); simpl;
      (split; [split; [done|by intros [? _]]|done]). }
  destruct ((timeout <? - max_timeout) || (max_timeout <? timeout)).
  { eexists; (split; [done|]); simpl.
    split; [split; [done|]|done].
    intros (_ & [? _]%Hrange & _). done. }
  destruct (timeout <? 0).
  { eexists; (split; [done|]); simpl.
    split; [split; [done|]|done].
    intros (_ & [_ ?]%Hrange & _). done. }
  assert (0 <= timeout <= max_timeout) as Ht by (by apply Hrange).
  destruct (connect net target port) as [e|].
  { destruct e; eexists; (split; [done|]); simpl;
      (split; [split; [done|by intros (_ & _ & ? & _)]|done]). }
  destruct banner.
  - destruct (banner_grab net target port) as [text|e].
    + eexists; (split; [done|]); simpl. split.
      * split; [|done]. intros _. repeat split; try done; try apply Ht.
        intros _. by exists text.
      * intros _. split; [done|]. split; [by intros ? _ [= <-]|done].
    + destruct e; eexists; (split; [done|]); simpl;
        (split; [split; [done|]|done]);
        intros (_ & _ & _ & Hb); by destruct (Hb eq_refl).
  - eexists; (split; [done|]); simpl. split.
    + split; [|done]. intros _. repeat split; try done; apply Ht.
    + intros _. split; [done|]. split; [done|]. done.
Qed.

(** X12. An exception of [banner_grab] is met by the handlers of the
    connection attempt.  When a banner is asked for and [banner_grab] raises,
    the worker holds no latency and a status other than [open]; and if the
    connection had been established, that status is [filtered] after a
    timeout, [closed] after a refusal and [error], with the text of the
    exception, otherwise: an open port is reported as not open. *)
Theorem worker_banner_failure_hides_open_port net target timeout port n e :
  banner_grab net target port = Raise e →
  ∃ l, result (worker_locals net target timeout true port n) = Ret l
       ∧ status l ≠ "open" ∧ latency l = None
       ∧ (ev_connect target port None
            ∈ events (worker_locals net target timeout true port n) →
          (∀ msg, e = timeout_exception msg → status l = "filtered")
          ∧ (∀ msg, e = connection_refused_exception msg → status l = "closed")
          ∧ ((∀ msg, e ≠ timeout_exception msg) →
             (∀ msg, e ≠ connection_refused_exception msg) →
             status l = "error" ∧ banner_text l = Some (str e))).
Proof.
  intros Hb. run.
  destruct (open_socket net) as [e'|].
  { destruct e'; eexists; (split; [done|]); simpl;
      (split; [done|]); (split; [done|]); intros Hin; set_solver. }
  destruct ((timeout <? - max_timeout) || (max_timeout <? timeout)).
  { eexists; (split; [done|]); simpl.
    split; [done|]. split; [done|]. intros Hin; set_solver. }
  destruct (timeout <? 0).
  { eexists; (split; [done|]); simpl.
    split; [done|]. split; [done|]. intros Hin; set_solver. }
  destruct (connect net target port) as [e'|].
  { destruct e'; eexists; (split; [done|]); simpl;
      (split; [done|]); (split; [done|]); intros Hin; set_solver. }
  rewrite Hb.
  destruct e as [msg|msg|msg|msg]; eexists; (split; [done|]); simpl;
    (split; [done|]); (split; [done|]); intros _;
    repeat split; try done.
  all: by match goal with H : ∀ m, ?c ?x ≠ ?c m |- _ => destruct (H x) end.
Qed.

(** X13. A call of [worker] attempts at most one connection, and only to
    the target and port it was given: nothing is retried. *)
Theorem worker_connects_once net target timeout banner port n :
  let evs := events (worker net target timeout banner port n) in
  (length (filter is_connect evs) <= 1)%nat
  ∧ ∀ target' port' raised,
      ev_connect target' port' raised ∈ evs →
      target' = target ∧ port' = port ∧ raised = connect net target port.
Proof.
  run.
  destruct (open_socket net) as [e|].
  { destruct e; simpl; (split; [lia|]); intros ? ? ?; set_solver. }
  destruct ((timeout <? - max_timeout) || (max_timeout <? timeout)).
  { simpl; (split; [lia|]); intros ? ? ?; set_solver. }
  destruct (timeout <? 0).
  { simpl; (split; [lia|]); intros ? ? ?; set_solver. }
  destruct (connect net target port) as [e|].
  { destruct e; simpl; (split; [lia|]); intros ? ? ?; set_solver. }
  destruct banner.
  - destruct (banner_grab net target port) as [text|e]; [|destruct e];
      simpl; (split; [lia|]); intros ? ? ?; set_solver.
  - simpl; (split; [lia|]); intros ? ? ?; set_solver.
Qed.

(** X15. [connect_scan] never probes: whatever its arguments, it causes no
    event but at most one reading of the clock, and with [dry_run] off it
    returns [None] at once. *)
Theorem connect_scan_never_probes net target ports timeout concurrency dry_run banner n :
  let out := connect_scan net target ports timeout concurrency dry_run banner n in
  no_io (events out)
  ∧ (length (events out) <= 1)%nat
  ∧ (dry_run = false → out = (Ret None, n, [])).
Proof.
  destruct dry_run; [destruct ports as [|port rest]|]; simpl;
    repeat split; repeat constructor; done.
Qed.

(** X14. A call of [worker] holds at most one socket at any instant, and has
    released it when it returns, whether the probe succeeded, failed or
    raised on the way. *)
Theorem worker_releases_socket net target timeout banner port n pre :
  pre `prefix_of` events (worker net target timeout banner port n) →
  0 <= in_flight pre <= 1
  ∧ in_flight (events (worker net target timeout banner port n)) = 0.
Proof.
  intros Hpre.
  destruct (worker_in_flight net target timeout banner port n) as [Hall H0].
  split; [by apply Hall|done].
Qed.

Lemma worker_banner_failure_hides_open_port_witness :
  ∃ l, result (worker_locals
                 {| clock := Z.of_nat; open_socket := None;
                    connect := λ _ _, None;
                    banner_grab := λ _ _, Raise (timeout_exception "timed out") |}
                 "10.0.0.1" 1 true 22 0%nat) = Ret l
       ∧ status l = "filtered" ∧ latency l = None.
Proof.
  destruct (worker_banner_failure_hides_open_port
              {| clock := Z.of_nat; open_socket := None;
                 connect := λ _ _, None;
                 banner_grab := λ _ _, Raise (timeout_exception "timed out") |}
              "10.0.0.1" 1 22 0%nat (timeout_exception "timed out")
              eq_refl) as (l & E & Hs & Hl & Hc).
  exists l. split; [exact E|]. split; [|exact Hl].
  apply (proj1 (Hc ltac:(vm_compute; do 4 right; left)) "timed out" eq_refl).
Defined.

Lemma worker_connects_once_witness :
  "10.0.0.1" = "10.0.0.1" ∧ 22 = 22
  ∧ @None exn = connect open_net "10.0.0.1" 22.
Proof.
  apply (proj2 (worker_connects_once open_net "10.0.0.1" 1 false 22 0%nat)
           "10.0.0.1" 22 None).
  vm_compute. do 4 right. left.
Defined.

Lemma worker_releases_socket_witness :
  0 <= in_flight [ev_clock; ev_socket None] <= 1
  ∧ in_flight (events (worker open_net "10.0.0.1" 1 false 22 0%nat)) = 0.
Proof.
  apply (worker_releases_socket open_net "10.0.0.1" 1 false 22 0%nat
           [ev_clock; ev_socket None]).
  by eexists.
Defined.

Lemma connect_scan_never_probes_witness :
  connect_scan open_net "10.0.0.1" [22; 80] 1 5 false false 0%nat
  = (Ret None, 0%nat, []).
Proof.
  apply (proj2 (proj2 (connect_scan_never_probes
                         open_net "10.0.0.1" [22; 80] 1 5 false false 0%nat))
           eq_refl).
Defined.

End WorkerProofs.

(** * Properties of the patterns *)

Module PyReProofs.
Import PyRe.

Lemma append_cons x (a b : string) : String x a +:+ b = String x (a +:+ b).
Proof. done. Qed.

Lemma append_nil_l (a : string) : EmptyString +:+ a = a.
Proof. done. Qed.

Lemma append_assoc (a b c : string) : (a +:+ b) +:+ c = a +:+ (b +:+ c).
Proof.
  induction a as [|x a IH]; [done|]. rewrite !append_cons. by f_equal.
Qed.

Lemma append_nil_r (a : string) : a +:+ EmptyString = a.
Proof. induction a as [|x a IH]; [done|]. rewrite append_cons. by f_equal. Qed.

Lemma last_char_app prev a b :
  last_char prev (a +:+ b) = last_char (last_char prev a) b.
Proof.
  revert prev. induction a as [|x a IH]; intros prev; [done|].
  rewrite append_cons. simpl. apply IH.
Qed.

Lemma leads_refl p : leads p EmptyString p.
Proof. done. Qed.

Lemma leads_trans p1 p2 p3 a b :
  leads p1 a p2 → leads p2 b p3 → leads p1 (a +:+ b) p3.
Proof.
  intros [H1 H1'] [H2 H2']. split.
  - by rewrite H1, H2, append_assoc.
  - by rewrite H2', H1', last_char_app.
Qed.

Lemma leads_step ok p p' :
  p' ∈ step ok p → ∃ a, ok a = true ∧ leads p (String a EmptyString) p'.
Proof.
  unfold step. destruct p as [prev [|a s]]; simpl; [by intros ?%elem_of_nil|].
  destruct (ok a) eqn:Ha; [|by intros ?%elem_of_nil].
  intros ->%list_elem_of_singleton. by exists a.
Qed.

Section closure.
Context (Q : string → Prop).
Hypothesis Q_nil : Q EmptyString.
Hypothesis Q_app : ∀ a b, Q a → Q b → Q (a +:+ b).

Lemma consumes_upto f n : consumes Q f → consumes Q (upto f n).
Proof.
  intros Hf. induction n as [|n IH]; intros p p'; simpl.
  - intros ->%list_elem_of_singleton. exists EmptyString. split; [apply leads_refl|done].
  - intros [->|Hin]%elem_of_cons.
    { exists EmptyString. split; [apply leads_refl|done]. }
    apply list_elem_of_bind in Hin as (p1 & Hp' & Hp1).
    destruct (Hf _ _ Hp1) as (a & Ha & HQa).
    destruct (IH _ _ Hp') as (b & Hb & HQb).
    exists (a +:+ b). split; [by eapply leads_trans|auto].
Qed.

Lemma consumes_times f n k :
  consumes Q f → consumes Q k → consumes Q (times f n k).
Proof.
  intros Hf Hk. induction n as [|n IH]; intros p p'; simpl; [apply Hk|].
  intros (p1 & Hp' & Hp1)%list_elem_of_bind.
  destruct (Hf _ _ Hp1) as (a & Ha & HQa).
  destruct (IH _ _ Hp') as (b & Hb & HQb).
  exists (a +:+ b). split; [by eapply leads_trans|auto].
Qed.
End closure.

Lemma contains_append_l c a b :
  PyStr.contains c a = true → PyStr.contains c (a +:+ b) = true.
Proof.
  induction a as [|x a IH]; [done|]. rewrite append_cons. simpl.
  destruct (Ascii.eqb x c); auto.
Qed.

Lemma contains_append_r c a b :
  PyStr.contains c b = true → PyStr.contains c (a +:+ b) = true.
Proof.
  intros Hb. induction a as [|x a IH]; [done|]. rewrite append_cons. simpl.
  destruct (Ascii.eqb x c); auto.
Qed.

Lemma all_chars_append ok a b :
  all_chars ok (a +:+ b) = all_chars ok a && all_chars ok b.
Proof.
  induction a as [|x a IH]; [done|]. rewrite append_cons. simpl.
  by rewrite IH, andb_assoc.
Qed.

Lemma run_leads r : consumes (λ _, True) (run r).
Proof.
  induction r as [| |c| | |ranges|r1 IH1 r2 IH2|r1 IH1 r2 IH2|r IH lo hi| |
                  |r IH|c]; intros p p'; simpl.
  - by intros ?%elem_of_nil.
  - intros ->%list_elem_of_singleton. by exists EmptyString.
  - intros (a & _ & ?)%leads_step. eauto.
  - intros (a & _ & ?)%leads_step. eauto.
  - intros (a & _ & ?)%leads_step. eauto.
  - intros (a & _ & ?)%leads_step. eauto.
  - intros (p1 & Hp' & Hp1)%list_elem_of_bind.
    destruct (IH1 _ _ Hp1) as (a & Ha & _), (IH2 _ _ Hp') as (b & Hb & _).
    exists (a +:+ b). split; [by eapply leads_trans|done].
  - intros [?|?]%elem_of_app; eauto.
  - apply (consumes_times (λ _, True)); [done|done|].
    intros q q'. apply (consumes_upto (λ _, True)); done.
  - destruct p.1; [by intros ?%elem_of_nil|].
    intros ->%list_elem_of_singleton. by exists EmptyString.
  - intros Hin. assert (p' = p) as ->; [|by exists EmptyString].
    destruct p.2 as [|a [|b s]]; try by apply elem_of_nil in Hin.
    + by apply list_elem_of_singleton in Hin.
    + destruct (Ascii.eqb a newline); [|by apply elem_of_nil in Hin].
      by apply list_elem_of_singleton in Hin.
  - destruct (run r p); [|by intros ?%elem_of_nil].
    intros ->%list_elem_of_singleton. by exists EmptyString.
  - intros Hin. assert (p' = p) as ->; [|by exists EmptyString].
    destruct p.1 as [a|]; [destruct (Ascii.eqb a c)|];
      first [by apply elem_of_nil in Hin | by apply list_elem_of_singleton in Hin].
Qed.

Lemma run_needs c r :
  needs c r = true → consumes (λ pre, PyStr.contains c pre = true) (run r).
Proof.
  induction r as [| |a| | |ranges|r1 IH1 r2 IH2|r1 IH1 r2 IH2|r IH lo hi| |
                  |r IH|a]; simpl; try done; intros Hn p p'.
  - by intros ?%elem_of_nil.
  - intros (x & Hx & ?)%leads_step. exists (String x EmptyString).
    split; [done|]. apply Ascii.eqb_eq in Hx as <-.
    apply Ascii.eqb_eq in Hn as ->. simpl. by rewrite Ascii.eqb_refl.
  - simpl. intros (p1 & Hp' & Hp1)%list_elem_of_bind.
    apply orb_prop in Hn as [Hn|Hn].
    + destruct (IH1 Hn _ _ Hp1) as (x & Hx & Hc).
      destruct (run_leads r2 _ _ Hp') as (y & Hy & _).
      exists (x +:+ y). split; [by eapply leads_trans|by apply contains_append_l].
    + destruct (run_leads r1 _ _ Hp1) as (x & Hx & _).
      destruct (IH2 Hn _ _ Hp') as (y & Hy & Hc).
      exists (x +:+ y). split; [by eapply leads_trans|by apply contains_append_r].
  - simpl. apply andb_prop in Hn as [Hn1 Hn2].
    intros [?|?]%elem_of_app; [by apply (IH1 Hn1)|by apply (IH2 Hn2)].
  - simpl. apply andb_prop in Hn as [Hlo Hn].
    destruct lo as [|lo]; [done|]. simpl.
    intros (p1 & Hp' & Hp1)%list_elem_of_bind.
    destruct (IH Hn _ _ Hp1) as (x & Hx & Hc).
    assert (consumes (λ _, True)
              (times (run r) lo (λ p'0, upto (run r)
                 match hi with
                 | Some hi0 => (hi0 - S lo)%nat
                 | None => String.length p'0.2
                 end p'0))) as Hrest.
    { apply (consumes_times (λ _, True)); [done|apply run_leads|].
      intros q q'. apply (consumes_upto (λ _, True)); [done|done|apply run_leads]. }
    destruct (Hrest _ _ Hp') as (y & Hy & _).
    exists (x +:+ y). split; [by eapply leads_trans|by apply contains_append_l].
Qed.

Lemma forallb_chars_between ok lo hi a :
  forallb ok (chars_between lo hi) = true →
  leb lo a && leb a hi = true → ok a = true.
Proof.
  intros Hall [Hlo Hhi]%andb_prop.
  apply Nat.leb_le in Hlo, Hhi. rewrite forallb_forall in Hall.
  apply Hall, list_elem_of_In. unfold chars_between.
  apply list_elem_of_fmap. exists (nat_of_ascii a).
  split; [by rewrite ascii_nat_embedding|].
  apply elem_of_seq. lia.
Qed.

Lemma in_class_only ok ranges a :
  forallb (λ '(lo, hi), forallb ok (chars_between lo hi)) ranges = true →
  in_class ranges a = true → ok a = true.
Proof.
  unfold in_class. rewrite forallb_forall, existsb_exists.
  intros Hall ([lo hi] & Hin & Ha).
  apply (forallb_chars_between ok lo hi); [|done]. by apply (Hall (lo, hi)).
Qed.

Lemma run_only ok r :
  only ok r = true → consumes (λ pre, all_chars ok pre = true) (run r).
Proof.
  assert (∀ a b, all_chars ok a = true → all_chars ok b = true →
                 all_chars ok (a +:+ b) = true) as Happ.
  { intros a b Ha Hb. by rewrite all_chars_append, Ha, Hb. }
  assert (∀ (test : ascii → bool),
            (∀ a, test a = true → ok a = true) →
            consumes (λ pre, all_chars ok pre = true) (step test)) as Hstep.
  { intros test Htest p p' (a & Ha & ?)%leads_step.
    exists (String a EmptyString). split; [done|]. simpl.
    by rewrite (Htest a Ha). }
  induction r as [| |c| | |ranges|r1 IH1 r2 IH2|r1 IH1 r2 IH2|r IH lo hi| |
                  |r IH|c]; simpl; try done; intros Ho.
  - intros p p'. by intros ?%elem_of_nil.
  - intros p p' ->%list_elem_of_singleton. by exists EmptyString.
  - apply Hstep. by intros a ->%Ascii.eqb_eq.
  - apply Hstep. intros a Ha. by apply (forallb_chars_between ok "0" "9").
  - apply Hstep. intros a Ha. by apply (in_class_only ok ranges).
  - apply andb_prop in Ho as [Ho1 Ho2]. intros p p'.
    intros (p1 & Hp' & Hp1)%list_elem_of_bind.
    destruct (IH1 Ho1 _ _ Hp1) as (x & Hx & Hc).
    destruct (IH2 Ho2 _ _ Hp') as (y & Hy & Hd).
    exists (x +:+ y). split; [by eapply leads_trans|auto].
  - apply andb_prop in Ho as [Ho1 Ho2]. intros p p'.
    intros [?|?]%elem_of_app; [by apply (IH1 Ho1)|by apply (IH2 Ho2)].
  - apply (consumes_times (λ pre, all_chars ok pre = true)); [done|auto|].
    intros q q'. apply (consumes_upto (λ pre, all_chars ok pre = true)); auto.
  - intros p p'. destruct p.1; [by intros ?%elem_of_nil|].
    intros ->%list_elem_of_singleton. by exists EmptyString.
  - intros p p' Hin. destruct (run_leads Eol _ _ Hin) as (pre & Hl & _).
    assert (p' = p) as ->; [|by exists EmptyString].
    simpl in Hin. destruct p.2 as [|a [|b s]]; try by apply elem_of_nil in Hin.
    + by apply list_elem_of_singleton in Hin.
    + destruct (Ascii.eqb a newline); [|by apply elem_of_nil in Hin].
      by apply list_elem_of_singleton in Hin.
  - intros p p'. destruct (run r p); [|by intros ?%elem_of_nil].
    intros ->%list_elem_of_singleton. by exists EmptyString.
  - intros p p' Hin. assert (p' = p) as ->; [|by exists EmptyString].
    destruct p.1 as [a|]; [destruct (Ascii.eqb a c)|];
      first [by apply elem_of_nil in Hin | by apply list_elem_of_singleton in Hin].
Qed.

Lemma run_ends_at_eol r p p' :
  ends_at_eol r = true → p' ∈ run r p → at_eol p'.
Proof.
  revert p p'.
  induction r as [| |c| | |ranges|r1 IH1 r2 IH2|r1 IH1 r2 IH2|r IH lo hi| |
                  |r IH|c]; simpl; try done; intros p p' He.
  - by intros ?%elem_of_nil.
  - intros (p1 & Hp' & Hp1)%list_elem_of_bind. eauto.
  - apply andb_prop in He as [He1 He2]. intros [?|?]%elem_of_app; eauto.
  - unfold at_eol. destruct p.2 as [|a [|b s]] eqn:E;
      try by intros ?%elem_of_nil.
    + intros ->%list_elem_of_singleton. by left.
    + destruct (Ascii.eqb_spec a newline) as [->|]; [|by intros ?%elem_of_nil].
      intros ->%list_elem_of_singleton. by right.
Qed.

(** What a match at the start of [s] tells about [s]. *)
Lemma match_leads r s :
  match_ r s = true → ∃ p', p' ∈ run r (None, s).
Proof.
  unfold match_. destruct (run r (None, s)) as [|p' l]; [done|].
  intros _. exists p'. by left.
Qed.

Lemma match_needs c r s :
  needs c r = true → match_ r s = true → PyStr.contains c s = true.
Proof.
  intros Hn (p' & Hp')%match_leads.
  destruct (run_needs c r Hn _ _ Hp') as (pre & [Hs _] & Hc).
  simpl in Hs. rewrite Hs. by apply contains_append_l.
Qed.

Lemma match_only ok r s :
  only ok r = true → ends_at_eol r = true → match_ r s = true →
  ∃ pre, all_chars ok pre = true
         ∧ (s = pre ∨ s = pre +:+ String newline EmptyString).
Proof.
  intros Ho He (p' & Hp')%match_leads.
  destruct (run_only ok r Ho _ _ Hp') as (pre & [Hs _] & Hc).
  exists pre. split; [done|]. simpl in Hs.
  destruct (run_ends_at_eol _ _ _ He Hp') as [E|E]; rewrite E in Hs.
  - left. by rewrite append_nil_r in Hs.
  - by right.
Qed.

Lemma all_chars_impl (ok ok' : ascii → bool) s :
  (∀ a, ok a = true → ok' a = true) →
  all_chars ok s = true → all_chars ok' s = true.
Proof.
  intros Himpl. induction s as [|a s IH]; [done|]. simpl.
  intros [Ha Hs]%andb_prop. by rewrite (Himpl a Ha), IH.
Qed.

Lemma all_chars_contains ok c s :
  all_chars ok s = true → ok c = false → PyStr.contains c s = false.
Proof.
  intros Hs Hc. induction s as [|a s IH]; [done|]. simpl in *.
  apply andb_prop in Hs as [Ha Hs].
  destruct (Ascii.eqb_spec a c) as [->|]; [congruence|auto].
Qed.

End PyReProofs.

(** * Properties of normalize_targets *)

Module TargetsProofs.
Import PyRe PortUtils PyReProofs.

Example normalize_targets_hosts :
  normalize_targets no_files
    " 10.0.0.1, example.com,,#web.example.org, 10.0.0.1 ,local_host,::1" false
  = Ret ["10.0.0.1"; "example.com"; "::1"].
Proof. vm_compute. reflexivity. Qed.

Example normalize_targets_none :
  normalize_targets no_files "localhost, 300, #a.b" false
  = Raise (ValueError "No valid targets found").
Proof. vm_compute. reflexivity. Qed.

Example normalize_targets_lines :
  normalize_targets
    (one_file "targets.txt"
       ["# hosts" +:+ String newline EmptyString;
        "10.0.0.1" +:+ String newline EmptyString;
        String newline EmptyString;
        "example.com"])
    "targets.txt" false
  = Ret ["10.0.0.1"; "example.com"].
Proof. vm_compute. reflexivity. Qed.

(** The IPv4 pattern rejects an octet above 255, and the hostname pattern
    accepts the same text. *)
Example is_valid_target_out_of_range_ipv4 :
  match_ ipv4_pattern "999.999.999.999" = false
  ∧ is_valid_target "999.999.999.999" = true.
Proof. vm_compute. done. Qed.

Lemma valid_target_chars t :
  is_valid_target t = true →
  (PyStr.contains "." t = true ∨ PyStr.contains ":" t = true)
  ∧ ∃ pre, all_chars target_char pre = true
           ∧ (t = pre ∨ t = pre +:+ String newline EmptyString).
Proof.
  unfold is_valid_target.
  intros [[H|H]%orb_prop|H]%orb_prop.
  - split; [left; by apply (match_needs "." ipv4_pattern)|].
    by apply (match_only target_char ipv4_pattern).
  - split; [right; by apply (match_needs ":" ipv6_pattern)|].
    by apply (match_only target_char ipv6_pattern).
  - split; [left; by apply (match_needs "." hostname_pattern)|].
    by apply (match_only target_char hostname_pattern).
Qed.

Lemma target_char_not_space a : target_char a = true → PyStr.isspace a = false.
Proof. by destruct a as [[] [] [] [] [] [] [] []]. Qed.

Lemma target_char_not_comma a : target_char a = true → Ascii.eqb a "," = false.
Proof. by destruct a as [[] [] [] [] [] [] [] []]. Qed.

Lemma target_char_not_hash a : target_char a = true → Ascii.eqb "#" a = false.
Proof. by destruct a as [[] [] [] [] [] [] [] []]. Qed.

(** What [rstrip] returns does not end in white space. *)
Lemma rstrip_last s pre a :
  PyStr.rstrip s = pre +:+ String a EmptyString → PyStr.isspace a = false.
Proof.
  revert pre. induction s as [|x s IH]; intros pre; simpl.
  - by destruct pre.
  - destruct (PyStr.rstrip s) as [|y r] eqn:E.
    + destruct (PyStr.isspace x) eqn:Hx; [by destruct pre|].
      destruct pre as [|z pre]; [by intros [= <-]|].
      rewrite append_cons. intros [= _ H]. by destruct pre.
    + destruct pre as [|z pre]; [done|].
      rewrite append_cons. intros [= _ H]. by apply (IH pre).
Qed.

Lemma strip_last s pre a :
  PyStr.strip s = pre +:+ String a EmptyString → PyStr.isspace a = false.
Proof. apply rstrip_last. Qed.

Lemma strip_no_space t :
  all_chars (λ a, negb (PyStr.isspace a)) t = true → PyStr.strip t = t.
Proof.
  unfold PyStr.strip. intros Ht.
  assert (PyStr.lstrip t = t) as ->.
  { destruct t as [|a t]; [done|]. simpl in *.
    by destruct (PyStr.isspace a). }
  induction t as [|a t IH]; [done|]. simpl in *.
  apply andb_prop in Ht as [Ha Ht]. rewrite IH by done.
  destruct t; [|done]. by destruct (PyStr.isspace a).
Qed.

(** A valid target that was stripped holds only target characters, is not
    empty and is no comment. *)
Lemma valid_stripped_target x :
  is_valid_target (PyStr.strip x) = true →
  all_chars target_char (PyStr.strip x) = true
  ∧ PyStr.strip x ≠ EmptyString
  ∧ PyStr.startswith "#" (PyStr.strip x) = false.
Proof.
  intros Hv. destruct (valid_target_chars _ Hv) as [Hdot (pre & Hpre & Ht)].
  assert (PyStr.strip x = pre) as E.
  { destruct Ht as [?|Ht]; [done|]. by apply strip_last in Ht. }
  rewrite E in *. split; [done|].
  destruct pre as [|a pre]; [by destruct Hdot|]. split; [done|].
  apply andb_prop in Hpre as [Ha _].
  change (PyStr.startswith "#" (String a pre)) with (Ascii.eqb "#" a && true).
  by rewrite (target_char_not_hash a Ha).
Qed.

(** The two tests before [is_valid_target] skip nothing that it would
    accept: each loop keeps the stripped entries that are valid. *)
Lemma collect_filter lines : ∀ targets,
  foldl collect targets lines
  = targets ++ filter (λ t, is_valid_target t = true) (PyStr.strip <$> lines).
Proof.
  induction lines as [|line lines IH]; intros targets.
  - simpl. by rewrite app_nil_r.
  - change (foldl collect targets (line :: lines))
      with (foldl collect (collect targets line) lines).
    rewrite IH, fmap_cons. unfold collect.
    destruct (is_valid_target (PyStr.strip line)) eqn:Hv.
    + destruct (valid_stripped_target _ Hv) as (_ & Hne & Hhash).
      rewrite Hhash, filter_cons_True by done.
      destruct (PyStr.strip line); [done|]. simpl. by rewrite <- app_assoc.
    + rewrite filter_cons_False by (by rewrite Hv).
      by destruct (_ || _).
Qed.

Lemma normalize_targets_direct fs target_spec :
  isfile fs target_spec = false →
  normalize_targets fs target_spec false
  = targets_of (PyStr.split "," target_spec).
Proof.
  intros Hf. unfold normalize_targets, targets_of, valid_entries.
  rewrite Hf. cbn [orb]. rewrite collect_filter, app_nil_l.
  by destruct (filter _ _).
Qed.

Lemma normalize_targets_file fs target_spec file_mode :
  file_mode || isfile fs target_spec = true →
  normalize_targets fs target_spec file_mode
  = match open_lines fs target_spec with
    | Lines lines => targets_of lines
    | OSError text =>
        Raise (ValueError ("Error reading file '" +:+ target_spec +:+ "': "
                           +:+ text))
    | Fails e => Raise e
    end.
Proof.
  intros Hf. unfold normalize_targets, targets_of, valid_entries.
  rewrite Hf. destruct (open_lines fs target_spec); [|done..].
  rewrite collect_filter, app_nil_l. by destruct (filter _ _).
Qed.

Lemma targets_of_spec entries :
  match targets_of entries with
  | Ret targets =>
      targets ≠ [] ∧ NoDup targets
      ∧ targets `sublist_of` PyStr.strip <$> entries
      ∧ ∀ t, t ∈ targets ↔ t ∈ PyStr.strip <$> entries ∧ is_valid_target t = true
  | Raise e =>
      e = ValueError "No valid targets found"
      ∧ ∀ t, t ∈ PyStr.strip <$> entries → is_valid_target t = false
  end.
Proof.
  unfold targets_of, valid_entries.
  destruct (filter _ _) as [|t ts] eqn:E.
  - split; [done|]. intros t Ht.
    destruct (is_valid_target t) eqn:Hv; [|done].
    assert (t ∈ filter (λ t, is_valid_target t = true) (PyStr.strip <$> entries))
      as Hin by by apply list_elem_of_filter.
    rewrite E in Hin. by apply elem_of_nil in Hin.
  - rewrite <- E. split; [|split; [|split]].
    + rewrite E, UniqueProofs.unique_preserve_order_cons. done.
    + apply UniqueProofs.NoDup_unique.
    + etrans; [apply UniqueProofs.unique_sublist|apply sublist_filter].
    + intros t'. rewrite UniqueProofs.elem_of_unique, list_elem_of_filter. tauto.
Qed.

Lemma normalize_targets_entries fs target_spec file_mode targets :
  normalize_targets fs target_spec file_mode = Ret targets →
  ∃ entries, targets_of entries = Ret targets.
Proof.
  destruct (file_mode || isfile fs target_spec) eqn:Hf.
  - rewrite normalize_targets_file by done.
    destruct (open_lines fs target_spec) as [lines| |]; [|done..]. eauto.
  - apply orb_false_elim in Hf as [-> Hf].
    rewrite normalize_targets_direct by done. eauto.
Qed.

Lemma normalize_targets_shape fs target_spec file_mode targets :
  normalize_targets fs target_spec file_mode = Ret targets →
  targets ≠ [] ∧ NoDup targets
  ∧ Forall (λ t, is_valid_target t = true
                 ∧ all_chars target_char t = true
                 ∧ (PyStr.contains "." t = true ∨ PyStr.contains ":" t = true))
      targets.
Proof.
  intros [entries E]%normalize_targets_entries.
  pose proof (targets_of_spec entries) as H. rewrite E in H.
  destruct H as (Hne & Hnd & _ & Hin). split; [done|]. split; [done|].
  apply Forall_forall. intros t [Ht Hv]%Hin.
  apply list_elem_of_fmap in Ht as (x & -> & _).
  split; [done|]. split; [by apply valid_stripped_target|].
  by apply valid_target_chars.
Qed.

Lemma unique_app_unique a b :
  unique_preserve_order (unique_preserve_order a ++ unique_preserve_order b)
  = unique_preserve_order (a ++ b).
Proof.
  rewrite !UniqueProofs.unique_app.
  rewrite !(UniqueProofs.unique_NoDup_id (unique_preserve_order _))
    by apply UniqueProofs.NoDup_unique.
  f_equal. apply list_filter_iff. intros x.
  by rewrite UniqueProofs.elem_of_unique.
Qed.

(** X16. An ASCII text that [is_valid_target] accepts holds a dot or a
    colon, and consists of letters, digits, dots, colons, percent signs and
    dashes only, apart from one line feed that may end it: a name of one label,
    such as localhost, and a name with an underscore are never accepted. *)
Theorem is_valid_target_shape t :
  is_valid_target t = true →
  (PyStr.contains "." t = true ∨ PyStr.contains ":" t = true)
  ∧ ∃ pre, all_chars target_char pre = true
           ∧ (t = pre ∨ t = pre +:+ String newline EmptyString).
Proof. apply valid_target_chars. Qed.

(** X17. A specification that is no file is read as a comma-separated
    list: the targets returned are the valid ones among the stripped
    tokens, each once and in the order of the tokens; if no token is valid,
    the call raises [ValueError("No valid targets found")]. *)
Theorem normalize_targets_direct_outcome fs target_spec :
  isfile fs target_spec = false →
  match normalize_targets fs target_spec false with
  | Ret targets =>
      targets ≠ [] ∧ NoDup targets
      ∧ targets `sublist_of` PyStr.strip <$> PyStr.split "," target_spec
      ∧ ∀ t, t ∈ targets ↔
             t ∈ PyStr.strip <$> PyStr.split "," target_spec
             ∧ is_valid_target t = true
  | Raise e =>
      e = ValueError "No valid targets found"
      ∧ ∀ t, t ∈ PyStr.strip <$> PyStr.split "," target_spec →
             is_valid_target t = false
  end.
Proof.
  intros Hf. rewrite normalize_targets_direct by done.
  apply (targets_of_spec (PyStr.split "," target_spec)).
Qed.

(** X18. With [file_mode] set, or a specification that is a file, the
    targets are read from the lines of the file: the valid ones among the
    stripped lines, each once and in the order of the lines, and
    [ValueError("No valid targets found")] if there is none.  An [OSError]
    is turned into a [ValueError] that names the file; any other exception
    of the reading leaves the call as it is. *)
Theorem normalize_targets_file_outcome fs target_spec file_mode :
  file_mode = true ∨ isfile fs target_spec = true →
  match open_lines fs target_spec with
  | Lines lines =>
      match normalize_targets fs target_spec file_mode with
      | Ret targets =>
          targets ≠ [] ∧ NoDup targets
          ∧ targets `sublist_of` PyStr.strip <$> lines
          ∧ ∀ t, t ∈ targets ↔
                 t ∈ PyStr.strip <$> lines ∧ is_valid_target t = true
      | Raise e =>
          e = ValueError "No valid targets found"
          ∧ ∀ t, t ∈ PyStr.strip <$> lines → is_valid_target t = false
      end
  | OSError text =>
      normalize_targets fs target_spec file_mode
      = Raise (ValueError ("Error reading file '" +:+ target_spec +:+ "': "
                           +:+ text))
  | Fails e => normalize_targets fs target_spec file_mode = Raise e
  end.
Proof.
  intros Hf. rewrite normalize_targets_file
    by (destruct Hf as [-> | ->]; [done|by rewrite orb_true_r]).
  destruct (open_lines fs target_spec) as [lines| |]; [|done..].
  apply (targets_of_spec lines).
Qed.

(** X19. Whatever [normalize_targets] returns is a non-empty list without
    duplicates, and each of its targets is valid, holds a dot or a colon and
    has no white space, comma or other character outside letters, digits,
    dot, colon, percent and dash. *)
Theorem normalize_targets_result_shape fs target_spec file_mode targets :
  normalize_targets fs target_spec file_mode = Ret targets →
  targets ≠ [] ∧ NoDup targets
  ∧ Forall (λ t, is_valid_target t = true
                 ∧ all_chars target_char t = true
                 ∧ (PyStr.contains "." t = true ∨ PyStr.contains ":" t = true))
      targets.
Proof. apply normalize_targets_shape. Qed.

(** X20. The targets that [normalize_targets] returns, joined by commas,
    are read back as the same list (if that text is not the path of a
    file). *)
Theorem normalize_targets_round_trip fs target_spec file_mode targets :
  normalize_targets fs target_spec file_mode = Ret targets →
  isfile fs (PyStr.join "," targets) = false →
  normalize_targets fs (PyStr.join "," targets) false = Ret targets.
Proof.
  intros E Hf.
  destruct (normalize_targets_shape _ _ _ _ E) as (Hne & Hnd & Hall).
  rewrite normalize_targets_direct by done.
  rewrite ParsePortsProofs.split_join; [|done|].
  2:{ apply (Forall_impl _ _ _ Hall). intros t (_ & Ht & _).
      apply (all_chars_contains target_char); [done|done]. }
  unfold targets_of, valid_entries.
  assert (PyStr.strip <$> targets = targets) as ->.
  { rewrite <- (list_fmap_id targets) at 2. apply Forall_fmap_ext_1.
    apply (Forall_impl _ _ _ Hall). intros t (_ & Ht & _). simpl.
    apply strip_no_space. apply (all_chars_impl target_char); [|done].
    intros a Ha. by rewrite (target_char_not_space a Ha). }
  rewrite UniqueProofs.filter_all
    by (apply (Forall_impl _ _ _ Hall); tauto).
  destruct targets as [|t ts]; [done|].
  by rewrite UniqueProofs.unique_NoDup_id.
Qed.

(** X21. Two specifications joined by a comma give the targets of the
    first followed by those of the second that are new; if one of the two
    has no valid target the result is that of the other, and the call
    raises only if both do. *)
Theorem normalize_targets_comma fs s1 s2 :
  isfile fs s1 = false → isfile fs s2 = false →
  isfile fs (s1 +:+ "," +:+ s2) = false →
  normalize_targets fs (s1 +:+ "," +:+ s2) false
  = match normalize_targets fs s1 false, normalize_targets fs s2 false with
    | Ret targets1, Ret targets2 =>
        Ret (unique_preserve_order (targets1 ++ targets2))
    | Ret targets1, Raise _ => Ret targets1
    | Raise _, Ret targets2 => Ret targets2
    | Raise e, Raise _ => Raise e
    end.
Proof.
  intros H1 H2 H12. rewrite !normalize_targets_direct by done.
  change (s1 +:+ "," +:+ s2) with (s1 +:+ String "," s2).
  rewrite ParsePortsProofs.split_app. unfold targets_of, valid_entries.
  rewrite fmap_app, filter_app.
  destruct (filter _ (PyStr.strip <$> PyStr.split "," s1)) as [|t1 v1] eqn:E1;
    destruct (filter _ (PyStr.strip <$> PyStr.split "," s2)) as [|t2 v2] eqn:E2;
    try done.
  - by rewrite app_nil_r.
  - by rewrite unique_app_unique.
Qed.

Lemma is_valid_target_shape_witness :
  (PyStr.contains "." "fe80::1%eth0" = true
   ∨ PyStr.contains ":" "fe80::1%eth0" = true)
  ∧ ∃ pre, all_chars target_char pre = true
           ∧ ("fe80::1%eth0" = pre
              ∨ "fe80::1%eth0" = pre +:+ String newline EmptyString).
Proof.
  apply (is_valid_target_shape "fe80::1%eth0"). vm_compute. reflexivity.
Defined.

Lemma normalize_targets_direct_outcome_witness :
  match normalize_targets no_files " b.org,a_b, a.org ,b.org" false with
  | Ret targets =>
      targets ≠ [] ∧ NoDup targets
      ∧ targets `sublist_of`
          PyStr.strip <$> PyStr.split "," " b.org,a_b, a.org ,b.org"
      ∧ ∀ t, t ∈ targets ↔
             t ∈ PyStr.strip <$> PyStr.split "," " b.org,a_b, a.org ,b.org"
             ∧ is_valid_target t = true
  | Raise e =>
      e = ValueError "No valid targets found"
      ∧ ∀ t, t ∈ PyStr.strip <$> PyStr.split "," " b.org,a_b, a.org ,b.org" →
             is_valid_target t = false
  end.
Proof.
  apply (normalize_targets_direct_outcome no_files " b.org,a_b, a.org ,b.org").
  reflexivity.
Defined.

Lemma normalize_targets_file_outcome_witness :
  match open_lines (one_file "hosts.txt" ["# lab"; " 10.0.0.1 "; "a.org"])
          "hosts.txt" with
  | Lines lines =>
      match normalize_targets
              (one_file "hosts.txt" ["# lab"; " 10.0.0.1 "; "a.org"])
              "hosts.txt" false with
      | Ret targets =>
          targets ≠ [] ∧ NoDup targets
          ∧ targets `sublist_of` PyStr.strip <$> lines
          ∧ ∀ t, t ∈ targets ↔
                 t ∈ PyStr.strip <$> lines ∧ is_valid_target t = true
      | Raise e =>
          e = ValueError "No valid targets found"
          ∧ ∀ t, t ∈ PyStr.strip <$> lines → is_valid_target t = false
      end
  | OSError text =>
      normalize_targets (one_file "hosts.txt" ["# lab"; " 10.0.0.1 "; "a.org"])
        "hosts.txt" false
      = Raise (ValueError ("Error reading file '" +:+ "hosts.txt" +:+ "': "
                           +:+ text))
  | Fails e =>
      normalize_targets (one_file "hosts.txt" ["# lab"; " 10.0.0.1 "; "a.org"])
        "hosts.txt" false
      = Raise e
  end.
Proof.
  apply (normalize_targets_file_outcome
           (one_file "hosts.txt" ["# lab"; " 10.0.0.1 "; "a.org"])
           "hosts.txt" false).
  right. reflexivity.
Defined.

Lemma normalize_targets_result_shape_witness :
  ["10.0.0.1"; "::1"] ≠ [] ∧ NoDup ["10.0.0.1"; "::1"]
  ∧ Forall (λ t, is_valid_target t = true
                 ∧ all_chars target_char t = true
                 ∧ (PyStr.contains "." t = true ∨ PyStr.contains ":" t = true))
      ["10.0.0.1"; "::1"].
Proof.
  apply (normalize_targets_result_shape no_files "10.0.0.1, ::1,10.0.0.1" false).
  vm_compute. reflexivity.
Defined.

Lemma normalize_targets_round_trip_witness :
  normalize_targets no_files (PyStr.join "," ["b.org"; "a.org"]) false
  = Ret ["b.org"; "a.org"].
Proof.
  apply (normalize_targets_round_trip no_files " b.org,a.org , b.org" false).
  - vm_compute. reflexivity.
  - reflexivity.
Defined.

Lemma normalize_targets_comma_witness :
  normalize_targets no_files ("b.org" +:+ "," +:+ "a.org, b.org") false
  = match normalize_targets no_files "b.org" false,
          normalize_targets no_files "a.org, b.org" false with
    | Ret targets1, Ret targets2 =>
        Ret (unique_preserve_order (targets1 ++ targets2))
    | Ret targets1, Raise _ => Ret targets1
    | Raise _, Ret targets2 => Ret targets2
    | Raise e, Raise _ => Raise e
    end.
Proof.
  apply (normalize_targets_comma no_files "b.org" "a.org, b.org");
    reflexivity.
Defined.

End TargetsProofs.

(** * The texts that a pattern matches *)

Module PyReSemantics.
Import PyRe PyReProofs.

Lemma leads_nil p p' : leads p EmptyString p' ↔ p' = p.
Proof.
  destruct p as [x s], p' as [x' s']. unfold leads. simpl. split.
  - by intros [-> ->].
  - by intros [= -> ->].
Qed.

Lemma leads_app p a b p' :
  leads p (a +:+ b) p' ↔ ∃ q, leads p a q ∧ leads q b p'.
Proof.
  split.
  - intros [H1 H2]. exists (last_char p.1 a, b +:+ p'.2). split.
    + split; [by rewrite H1, append_assoc|done].
    + split; [done|]. by rewrite H2, last_char_app.
  - intros (q & H1 & H2). by eapply leads_trans.
Qed.

Lemma computes_step ok : computes (step ok) (λ _ pre _, one ok pre).
Proof.
  intros [x s] [x' s']. unfold step, one, leads. simpl. split.
  - destruct s as [|a s]; [by intros ?%elem_of_nil|].
    destruct (ok a) eqn:Ha; [|by intros ?%elem_of_nil].
    intros [= -> ->]%list_elem_of_singleton.
    exists (String a EmptyString). eauto.
  - intros (pre & [-> ->] & a & -> & Ha). simpl. rewrite Ha. by left.
Qed.

Lemma computes_times f k D E n :
  computes f D → computes k E →
  computes (times f n k)
    (λ prev pre rest, ∃ a b, pre = a +:+ b ∧ pow D n prev a (b +:+ rest)
                             ∧ E (last_char prev a) b rest).
Proof.
  intros Hf Hk. induction n as [|n IH]; intros p p'; simpl.
  - rewrite (Hk p p'). split.
    + intros (pre & Hl & HE). exists pre. split; [done|].
      by exists EmptyString, pre.
    + intros (pre & Hl & a & b & -> & -> & HE). by exists b.
  - rewrite list_elem_of_bind. split.
    + intros (q & (b & Hb & c & d & -> & Hc & Hd)%IH & (a & Ha & HD)%Hf).
      exists (a +:+ (c +:+ d)). split; [by eapply leads_trans|].
      exists (a +:+ c), d. split; [by rewrite append_assoc|].
      destruct Ha as [Ha1 Ha2], Hb as [Hb1 Hb2]. rewrite Ha2 in *.
      split.
      * exists a, c. split; [done|]. split; [|done].
        rewrite append_assoc in Hb1. by rewrite <- Hb1.
      * by rewrite last_char_app.
    + intros (pre & Hl & ac & d & -> & (a & c & -> & HD & Hc) & Hd).
      rewrite append_assoc in Hl. apply leads_app in Hl as (q & Ha & Hb).
      exists q. split.
      * apply IH. exists (c +:+ d). split; [done|].
        destruct Ha as [_ ->]. exists c, d. split; [done|]. split; [done|].
        by rewrite last_char_app in Hd.
      * apply Hf. exists a. split; [done|].
        destruct Hb as [-> _]. by rewrite append_assoc.
Qed.

Lemma computes_upto f D n :
  computes f D →
  computes (upto f n)
    (λ prev pre rest, ∃ m, (m ≤ n)%nat ∧ pow D m prev pre rest).
Proof.
  intros Hf. induction n as [|n IH]; intros p p'; simpl.
  - rewrite list_elem_of_singleton. split.
    + intros ->. exists EmptyString. split; [done|]. by exists 0%nat.
    + intros (pre & Hl & m & Hm & Hp). assert (m = 0%nat) as -> by lia.
      simpl in Hp. subst pre. by apply leads_nil.
  - rewrite elem_of_cons, list_elem_of_bind. split.
    + intros [->|(q & (b & Hb & m & Hm & Hp)%IH & (a & Ha & HD)%Hf)].
      * exists EmptyString. split; [done|]. exists 0%nat. split; [lia|done].
      * exists (a +:+ b). split; [by eapply leads_trans|].
        exists (S m). split; [lia|]. exists a, b. split; [done|].
        destruct Ha as [_ Ha], Hb as [Hb _]. rewrite Ha, Hb in *. done.
    + intros (pre & Hl & [|m] & Hm & Hp).
      * left. simpl in Hp. subst pre. by apply leads_nil.
      * right. destruct Hp as (a & b & -> & HD & Hp).
        apply leads_app in Hl as (q & Ha & Hb). exists q. split.
        -- apply IH. exists b. split; [done|]. exists m. split; [lia|].
           by destruct Ha as [_ ->].
        -- apply Hf. exists a. split; [done|]. by destruct Hb as [-> _].
Qed.

(** The matcher computes the matches of the pattern. *)
Lemma run_den r : computes (run r) (den r).
Proof.
  induction r as [| |c| | |ranges|r1 IH1 r2 IH2|r1 IH1 r2 IH2|r IH lo hi| |
                  |r IH|c]; simpl.
  - intros p p'. split; [by intros ?%elem_of_nil|by intros (? & _ & [])].
  - intros p p'. rewrite list_elem_of_singleton. split.
    + intros ->. by exists EmptyString.
    + intros (pre & Hl & ->). by apply leads_nil.
  - apply computes_step.
  - apply computes_step.
  - apply computes_step.
  - apply computes_step.
  - intros p p'. rewrite list_elem_of_bind. split.
    + intros (q & (b & Hb & H2)%IH2 & (a & Ha & H1)%IH1).
      exists (a +:+ b). split; [by eapply leads_trans|].
      exists a, b. split; [done|].
      destruct Ha as [_ Ha], Hb as [Hb _]. by rewrite Ha, Hb in *.
    + intros (pre & Hl & a & b & -> & H1 & H2).
      apply leads_app in Hl as (q & Ha & Hb). exists q. split.
      * apply IH2. exists b. split; [done|]. by destruct Ha as [_ ->].
      * apply IH1. exists a. split; [done|]. by destruct Hb as [-> _].
  - intros p p'. rewrite elem_of_app, (IH1 p p'), (IH2 p p'). naive_solver.
  - intros p p'.
    assert (computes
      (λ p', upto (run r) match hi with
                          | Some hi => (hi - lo)%nat
                          | None => String.length p'.2
                          end p')
      (λ prev pre rest, ∃ m,
         (m ≤ match hi with
              | Some hi => hi - lo
              | None => String.length (pre +:+ rest)
              end)%nat ∧ pow (den r) m prev pre rest)) as Hk.
    { intros q q'.
      etrans; [apply (computes_upto (run r) (den r) _ IH q q')|]. split.
      * intros (pre & Hl & m & Hm & Hp). exists pre. split; [done|].
        exists m. split; [|done]. destruct Hl as [Hl _]. by rewrite <- Hl.
      * intros (pre & Hl & m & Hm & Hp). exists pre. split; [done|].
        exists m. split; [|done]. destruct Hl as [Hl _]. by rewrite Hl. }
    etrans; [apply (computes_times _ _ _ _ lo IH Hk p p')|]. split.
    + intros (pre & Hl & a & b & -> & Ha & m & Hm & Hb).
      exists (a +:+ b). split; [done|]. by exists a, b, m.
    + intros (pre & Hl & a & b & m & -> & Ha & Hb & Hm).
      exists (a +:+ b). split; [done|]. exists a, b. eauto.
  - intros [x s] p'. simpl. split.
    + destruct x; [by intros ?%elem_of_nil|].
      intros ->%list_elem_of_singleton. by exists EmptyString.
    + intros (pre & Hl & -> & ->). apply leads_nil in Hl as ->. by left.
  - intros [x s] p'. simpl. split.
    + intros Hin. assert (p' = (x, s) ∧ (s = EmptyString ∨ s = String newline EmptyString)) as [-> Hs].
      { destruct s as [|a [|b s]]; try by apply elem_of_nil in Hin.
        - apply list_elem_of_singleton in Hin. auto.
        - destruct (Ascii.eqb_spec a newline) as [->|]; [|by apply elem_of_nil in Hin].
          apply list_elem_of_singleton in Hin. auto. }
      by exists EmptyString.
    + intros (pre & Hl & -> & Hs). apply leads_nil in Hl as ->. simpl in Hs.
      destruct Hs as [-> | ->]; by left.
  - intros p p'. split.
    + destruct (run r p) as [|q l] eqn:E; [|by intros ?%elem_of_nil].
      intros ->%list_elem_of_singleton. exists EmptyString.
      split; [done|]. split; [done|]. intros (a & b & Hs & Hd).
      assert ((last_char p.1 a, b) ∈ run r p) as Hin.
      { apply IH. exists a. by split. }
      rewrite E in Hin. by apply elem_of_nil in Hin.
    + intros (pre & Hl & -> & Hno). apply leads_nil in Hl as ->.
      destruct (run r p) as [|q l] eqn:E; [by left|].
      destruct Hno. assert (q ∈ run r p) as Hin by (rewrite E; by left).
      apply IH in Hin as (a & [Ha _] & Hd). by exists a, q.2.
  - intros [x s] p'. simpl. split.
    + intros Hin. exists EmptyString.
      destruct x as [a|]; [destruct (Ascii.eqb_spec a c) as [->|]|];
        try (by apply elem_of_nil in Hin);
        apply list_elem_of_singleton in Hin as ->; (split; [done|]);
        (split; [done|congruence]).
    + intros (pre & Hl & -> & Hx). apply leads_nil in Hl as ->.
      destruct x as [a|]; [|by left].
      destruct (Ascii.eqb_spec a c) as [->|]; [done|by left].
Qed.

Lemma match_den r s :
  match_ r s = true ↔ ∃ pre rest, s = pre +:+ rest ∧ den r None pre rest.
Proof.
  unfold match_. split.
  - destruct (run r (None, s)) as [|p' l] eqn:E; [done|]. intros _.
    assert (p' ∈ run r (None, s)) as Hin by (rewrite E; by left).
    apply run_den in Hin as (pre & [Hs _] & Hd). by exists pre, p'.2.
  - intros (pre & rest & -> & Hd).
    assert ((last_char None pre, rest) ∈ run r (None, pre +:+ rest)) as Hin.
    { apply run_den. exists pre. by split. }
    by destruct (run r _); [apply elem_of_nil in Hin|].
Qed.

Lemma length_append (a b : string) :
  String.length (a +:+ b) = (String.length a + String.length b)%nat.
Proof. induction a as [|x a IH]; [done|]. rewrite append_cons. simpl. by rewrite IH. Qed.

(** [n + m] texts in a row are [n] texts followed by [m] texts. *)
Lemma pow_add D n m : ∀ prev pre rest,
  pow D (n + m) prev pre rest ↔
  ∃ a b, pre = a +:+ b ∧ pow D n prev a (b +:+ rest)
         ∧ pow D m (last_char prev a) b rest.
Proof.
  induction n as [|n IH]; intros prev pre rest; simpl.
  - split.
    + intros H. by exists EmptyString, pre.
    + by intros (a & b & -> & -> & H).
  - split.
    + intros (a & b & -> & HD & (c & d & -> & Hc & Hd)%IH).
      exists (a +:+ c), d. split; [by rewrite append_assoc|]. split.
      * exists a, c. split; [done|]. by rewrite <- append_assoc.
      * by rewrite last_char_app.
    + intros (ac & d & -> & (a & c & -> & HD & Hc) & Hd).
      exists a, (c +:+ d). split; [by rewrite append_assoc|].
      split; [by rewrite append_assoc|]. apply IH. exists c, d.
      split; [done|]. split; [done|]. by rewrite <- last_char_app.
Qed.

(** A repetition with an upper bound. *)
Lemma den_Rep_Some r lo hi prev pre rest :
  den (Rep r lo (Some hi)) prev pre rest ↔
  ∃ k, (lo ≤ k ≤ lo + (hi - lo))%nat ∧ pow (den r) k prev pre rest.
Proof.
  simpl. split.
  - intros (a & b & m & -> & Ha & Hb & Hm). exists (lo + m)%nat.
    split; [lia|]. apply pow_add. by exists a, b.
  - intros (k & Hk & Hp). replace k with (lo + (k - lo))%nat in Hp by lia.
    apply pow_add in Hp as (a & b & -> & Ha & Hb).
    exists a, b, (k - lo)%nat. repeat split; [done..|lia].
Qed.

(** Texts in a row that are not empty are at least as long as their number. *)
Lemma pow_length D n : ∀ prev pre rest,
  (∀ prev pre rest, D prev pre rest → pre ≠ EmptyString) →
  pow D n prev pre rest → (n ≤ String.length pre)%nat.
Proof.
  induction n as [|n IH]; intros prev pre rest HD; simpl; [lia|].
  intros (a & b & -> & Ha & Hb). apply HD in Ha. apply IH in Hb; [|done].
  rewrite length_append. destruct a; [done|]. simpl. lia.
Qed.

(** A repetition without an upper bound, of a pattern that does not match
    the empty text. *)
Lemma den_Rep_None r lo prev pre rest :
  (∀ prev pre rest, den r prev pre rest → pre ≠ EmptyString) →
  den (Rep r lo None) prev pre rest ↔
  ∃ k, (lo ≤ k)%nat ∧ pow (den r) k prev pre rest.
Proof.
  intros Hr. simpl. split.
  - intros (a & b & m & -> & Ha & Hb & Hm). exists (lo + m)%nat.
    split; [lia|]. apply pow_add. by exists a, b.
  - intros (k & Hk & Hp). replace k with (lo + (k - lo))%nat in Hp by lia.
    apply pow_add in Hp as (a & b & -> & Ha & Hb).
    exists a, b, (k - lo)%nat. repeat split; [done..|].
    apply pow_length in Hb; [|done]. rewrite length_append. lia.
Qed.

(** Characters in a row. *)
Lemma pow_one ok D n : ∀ prev pre rest,
  (∀ prev pre rest, D prev pre rest ↔ one ok pre) →
  pow D n prev pre rest ↔ String.length pre = n ∧ all_chars ok pre = true.
Proof.
  induction n as [|n IH]; intros prev pre rest HD; simpl.
  - split; [by intros ->|]. intros [H _]. by destruct pre.
  - split.
    + intros (a & b & -> & (x & -> & Hx)%HD & Hb%IH); [|done].
      destruct Hb as [<- Hb]. simpl. by rewrite Hx.
    + intros [Hn Hp]. destruct pre as [|x pre]; [done|]. simpl in *.
      apply andb_prop in Hp as [Hx Hp].
      exists (String x EmptyString), pre. split; [done|].
      split; [apply HD; by exists x|]. apply IH; [done|]. split; [lia|done].
Qed.

Lemma den_Rep_Class ranges lo hi prev pre rest :
  den (Rep (Class ranges) lo (Some hi)) prev pre rest ↔
  all_chars (in_class ranges) pre = true
  ∧ (lo ≤ String.length pre ≤ lo + (hi - lo))%nat.
Proof.
  rewrite den_Rep_Some. split.
  - intros (k & Hk & [<- Hp]%(pow_one (in_class ranges))); [done|done].
  - intros [Hp Hn]. exists (String.length pre). split; [done|].
    by apply (pow_one (in_class ranges)).
Qed.

Lemma pow_ext (D E : option ascii → string → string → Prop) n :
  ∀ prev prev' pre rest rest',
  (∀ prev prev' pre rest rest', D prev pre rest → E prev' pre rest') →
  pow D n prev pre rest → pow E n prev' pre rest'.
Proof.
  induction n as [|n IH]; intros prev prev' pre rest rest' HD; simpl; [done|].
  intros (a & b & -> & Ha & Hb). exists a, b. split; [done|].
  split; [by eapply HD|by eapply IH].
Qed.

(** What a pure pattern matches depends neither on the character before
    nor on the text after. *)
Lemma den_pure r : ∀ prev prev' pre rest rest',
  pure r = true → den r prev pre rest → den r prev' pre rest'.
Proof.
  induction r as [| |c| | |ranges|r1 IH1 r2 IH2|r1 IH1 r2 IH2|r IH lo hi| |
                  |r IH|c]; intros prev prev' pre rest rest' Hp;
    try done.
  - apply andb_prop in Hp as [H1 H2]. simpl.
    intros (a & b & -> & Ha & Hb). exists a, b. split; [done|].
    split; [by eapply IH1|by eapply IH2].
  - apply andb_prop in Hp as [H1 H2]. simpl.
    intros [H|H]; [left; by eapply IH1|right; by eapply IH2].
  - destruct hi as [hi|]; [|done]. simpl in Hp. rewrite !den_Rep_Some.
    intros (k & Hk & Hpow). exists k. split; [done|].
    eapply pow_ext; [|done]. intros. by eapply IH.
Qed.

Lemma pow_max_len D M n : ∀ prev pre rest,
  (∀ prev pre rest, D prev pre rest → (String.length pre ≤ M)%nat) →
  pow D n prev pre rest → (String.length pre ≤ n * M)%nat.
Proof.
  induction n as [|n IH]; intros prev pre rest HD; simpl.
  - by intros ->.
  - intros (a & b & -> & Ha%HD & Hb%IH); [|done].
    rewrite length_append. lia.
Qed.

Lemma den_max_len r : ∀ prev pre rest,
  pure r = true → den r prev pre rest → (String.length pre ≤ max_len r)%nat.
Proof.
  induction r as [| |c| | |ranges|r1 IH1 r2 IH2|r1 IH1 r2 IH2|r IH lo hi| |
                  |r IH|c]; intros prev pre rest Hp; try done.
  - simpl. by intros ->.
  - by intros (a & -> & _).
  - by intros (a & -> & _).
  - by intros (a & -> & _).
  - by intros (a & -> & _).
  - apply andb_prop in Hp as [H1 H2]. simpl.
    intros (a & b & -> & Ha%IH1 & Hb%IH2); [|done..].
    rewrite length_append. lia.
  - apply andb_prop in Hp as [H1 H2]. simpl.
    intros [H%IH1|H%IH2]; [lia|done|lia|done].
  - destruct hi as [hi|]; [|done]. simpl in Hp. rewrite den_Rep_Some.
    intros (k & Hk & Hpow%(pow_max_len _ (max_len r))).
    + simpl. nia.
    + intros. by eapply IH.
Qed.

Lemma append_inv_r (a b c : string) : a +:+ c = b +:+ c → a = b.
Proof.
  revert b. induction a as [|x a IH]; intros [|y b]; try done.
  - intros E. apply (f_equal String.length) in E.
    rewrite append_nil_l, append_cons in E. simpl in E.
    rewrite length_append in E. lia.
  - intros E. apply (f_equal String.length) in E.
    rewrite append_nil_l, append_cons in E. simpl in E.
    rewrite length_append in E. lia.
  - rewrite !append_cons. intros [= -> E]. f_equal. by apply IH.
Qed.

Lemma den_accepts r prev pre rest :
  pure r = true → den r prev pre rest ↔ accepts r pre = true.
Proof.
  intros Hp. unfold accepts. rewrite bool_decide_eq_true.
  etrans; [|symmetry; apply (run_den r)]. simpl. split.
  - intros Hd. exists pre. split; [split; [by rewrite append_nil_r|done]|].
    by eapply den_pure.
  - intros (pre' & [E _] & Hd). simpl in E. rewrite append_nil_r in E.
    subst pre'. by eapply den_pure.
Qed.

Lemma den_only ok r prev pre rest :
  only ok r = true → den r prev pre rest → all_chars ok pre = true.
Proof.
  intros Ho Hd.
  assert ((last_char prev pre, rest) ∈ run r (prev, pre +:+ rest)) as Hin.
  { apply run_den. exists pre. by split. }
  apply (run_only ok r Ho) in Hin as (pre' & [E _] & Hall). simpl in E.
  by apply append_inv_r in E as ->.
Qed.

Lemma elem_of_texts chars n : ∀ s,
  all_chars (λ a, bool_decide (a ∈ chars)) s = true →
  (String.length s ≤ n)%nat → s ∈ texts chars n.
Proof.
  induction n as [|n IH]; intros [|a s] Hall Hn; simpl in *;
    try (by left); try lia.
  apply andb_prop in Hall as [Ha%bool_decide_eq_true Hs]. right.
  apply list_elem_of_bind. exists a. split; [|done].
  apply list_elem_of_fmap. exists s. split; [done|]. apply IH; [done|lia].
Qed.

Lemma is_digit_chars_between a :
  is_digit a = true → a ∈ chars_between "0" "9".
Proof.
  intros [Hlo Hhi]%andb_prop. apply Nat.leb_le in Hlo, Hhi.
  unfold chars_between. apply list_elem_of_fmap. exists (nat_of_ascii a).
  split; [by rewrite ascii_nat_embedding|]. apply elem_of_seq. lia.
Qed.

End PyReSemantics.

(** * The hostname and IPv4 patterns *)

Module PatternProofs.
Import PyRe PortUtils PyReProofs PyReSemantics.

(** [re.compile] reads the three texts: the patterns are what it returns. *)
Example patterns_compile :
  compile ipv4_text = Some ipv4_pattern
  ∧ compile ipv6_text = Some ipv6_pattern
  ∧ compile hostname_text = Some hostname_pattern.
Proof. vm_compute. done. Qed.

Example hostname_pattern_names :
  match_ hostname_pattern "example.com" = true
  ∧ match_ hostname_pattern "localhost" = false
  ∧ match_ hostname_pattern "a.-b-" = true
  ∧ match_ hostname_pattern "-a.b" = false
  ∧ match_ hostname_pattern "a..b" = false.
Proof. vm_compute. done. Qed.

Example ipv4_pattern_addresses :
  match_ ipv4_pattern "10.0.0.1" = true
  ∧ match_ ipv4_pattern "256.0.0.1" = false
  ∧ match_ ipv4_pattern "01.2.3.4" = true
  ∧ match_ ipv4_pattern "1.2.3" = false.
Proof. vm_compute. done. Qed.

Lemma hostname_pattern_groups :
  hostname_pattern
  = Cat Bol (Cat (NotAhead (Lit "-"))
      (Cat (Rep (Class [("A", "Z"); ("a", "z"); ("0", "9"); ("-", "-")]%char)
              1 (Some 63%nat))
         (Cat (NotBehind "-") (Cat (Rep dot_label 1 None) Eol)))).
Proof. reflexivity. Qed.

Lemma ipv4_pattern_fields :
  ipv4_pattern
  = Cat Bol (Cat (Rep (Cat octet_pattern (Lit ".")) 3 (Some 3%nat))
               (Cat octet_pattern Eol)).
Proof. reflexivity. Qed.

Lemma join_dotted l ls : PyStr.join "." (l :: ls) = l +:+ dotted ls.
Proof.
  revert l. induction ls as [|l' ls IH]; intros l.
  - simpl. by rewrite append_nil_r.
  - change (PyStr.join "." (l :: l' :: ls))
      with (l +:+ String "." (PyStr.join "." (l' :: ls))).
    rewrite IH. simpl. by rewrite append_cons.
Qed.

Lemma den_dot_label prev pre rest :
  den dot_label prev pre rest ↔ ∃ l, pre = String "." l ∧ label l.
Proof.
  unfold dot_label. change (den (Cat ?r1 ?r2) prev pre rest)
    with (∃ a b, pre = a +:+ b ∧ den r1 prev a (b +:+ rest)
                 ∧ den r2 (last_char prev a) b rest).
  setoid_rewrite den_Rep_Class. split.
  - intros (a & b & -> & (x & -> & <-%Ascii.eqb_eq) & Hb). by exists b.
  - intros (l & -> & Hl). exists (String "." EmptyString), l.
    split; [done|]. split; [by exists "."%char|done].
Qed.

Lemma pow_dot_label n : ∀ prev pre rest,
  pow (den dot_label) n prev pre rest ↔
  ∃ labels, length labels = n ∧ Forall label labels ∧ pre = dotted labels.
Proof.
  induction n as [|n IH]; intros prev pre rest; simpl.
  - split.
    + intros ->. by exists [].
    + intros (labels & Hn & _ & ->). by destruct labels.
  - split.
    + intros (a & b & -> & (l & -> & Hl)%den_dot_label
              & (labels & <- & Hall & ->)%IH).
      exists (l :: labels). split; [done|]. split; [by constructor|done].
    + intros ([|l labels] & Hn & Hall & ->); [done|].
      apply Forall_cons in Hall as [Hl Hall].
      exists (String "." l), (dotted labels). split; [done|].
      split; [apply den_dot_label; by exists l|].
      apply IH. exists labels. split; [by injection Hn|done].
Qed.

Lemma startswith_dash l x :
  l ≠ EmptyString →
  (¬ ∃ a b, l +:+ x = a +:+ b ∧ one (Ascii.eqb "-") a)
  ↔ PyStr.startswith "-" l = false.
Proof.
  intros Hl. destruct l as [|c l]; [done|]. rewrite append_cons.
  change (PyStr.startswith "-" (String c l)) with (Ascii.eqb "-" c && true).
  rewrite andb_true_r. split.
  - intros Hno. destruct (Ascii.eqb_spec "-" c) as [<-|]; [|done].
    destruct Hno. exists (String "-" EmptyString), (l +:+ x).
    split; [done|]. by exists "-"%char.
  - intros Hc (a & b & E & y & -> & <-%Ascii.eqb_eq).
    injection E as -> _. by rewrite Ascii.eqb_refl in Hc.
Qed.

(** Between the start of the subject and [rest], the hostname pattern
    matches the names of two or more labels, the first of which neither
    begins nor ends with a dash, if [rest] is empty or a line feed. *)
Lemma den_hostname_pattern pre rest :
  den hostname_pattern None pre rest ↔
  ∃ l ls, ls ≠ [] ∧ Forall label (l :: ls)
          ∧ PyStr.startswith "-" l = false
          ∧ last_char None l ≠ Some "-"%char
          ∧ pre = PyStr.join "." (l :: ls)
          ∧ (rest = EmptyString ∨ rest = String newline EmptyString).
Proof.
  rewrite hostname_pattern_groups.
  assert (∀ prev pre rest, den dot_label prev pre rest → pre ≠ EmptyString)
    as Hprog.
  { by intros prev pre' rest' (l & -> & _)%den_dot_label. }
  split.
  - intros (a0 & b0 & -> & [-> _] & a1 & b1 & ->
            & [-> Hahead] & l & b2 & -> & Hl%den_Rep_Class & a3 & b3 & ->
            & [-> Hbehind] & a4 & b4 & -> & Hrep & -> & Hrest).
    apply den_Rep_None in Hrep as (k & Hk & (ls & <- & Hls & ->)%pow_dot_label);
      [|done].
    simpl in Hahead, Hbehind. rewrite !append_nil_l in *.
    rewrite append_nil_r in *.
    exists l, ls. split; [destruct ls; [simpl in Hk; lia|done]|].
    split; [constructor; [split; [apply Hl|simpl in Hl; lia]|done]|].
    split.
    { rewrite append_assoc in Hahead.
      apply (startswith_dash l (dotted ls +:+ rest)); [|done].
      destruct l; [simpl in Hl; lia|done]. }
    split; [done|]. by rewrite join_dotted.
  - intros (l & ls & Hne & [Hl Hls]%Forall_cons & Hstart & Hend & -> & Hrest).
    rewrite join_dotted.
    exists EmptyString, (l +:+ dotted ls). split; [done|]. split; [done|].
    exists EmptyString, (l +:+ dotted ls). split; [done|]. split.
    { split; [done|]. simpl. rewrite append_assoc.
      apply startswith_dash; [|done]. destruct Hl as [_ Hl].
      destruct l; [simpl in Hl; lia|done]. }
    exists l, (dotted ls). split; [done|]. split.
    { apply den_Rep_Class. destruct Hl as [Hl1 Hl2]. split; [done|lia]. }
    exists EmptyString, (dotted ls). split; [done|]. split; [done|].
    exists (dotted ls), EmptyString. split; [by rewrite append_nil_r|]. split.
    + apply den_Rep_None; [done|]. exists (length ls).
      split; [destruct ls; [done|simpl; lia]|].
      apply pow_dot_label. by exists ls.
    + done.
Qed.

Lemma octet_pattern_texts :
  forallb (λ s, Bool.eqb (accepts octet_pattern s) (octet s))
    (texts (chars_between "0" "9") 3) = true.
Proof. vm_compute. reflexivity. Qed.

Lemma digits_texts s :
  all_chars is_digit s = true → (String.length s ≤ 3)%nat →
  accepts octet_pattern s = octet s.
Proof.
  intros Hd Hn. pose proof octet_pattern_texts as H.
  rewrite forallb_forall in H. apply Bool.eqb_prop, H, list_elem_of_In.
  apply elem_of_texts; [|done].
  apply (all_chars_impl is_digit); [|done].
  intros a Ha. by apply bool_decide_eq_true, is_digit_chars_between.
Qed.

(** The field pattern matches the octets, and nothing else. *)
Lemma den_octet_pattern prev pre rest :
  den octet_pattern prev pre rest ↔ octet pre = true.
Proof.
  rewrite (den_accepts octet_pattern) by done. split.
  - intros Ha. rewrite <- digits_texts; [done| |].
    + apply (den_only is_digit octet_pattern None pre EmptyString); [done|].
      by apply (den_accepts octet_pattern).
    + apply (den_max_len octet_pattern None pre EmptyString); [done|].
      by apply (den_accepts octet_pattern).
  - intros Ho. rewrite digits_texts; [done| |].
    + unfold octet in Ho. by destruct (all_chars is_digit pre).
    + unfold octet in Ho.
      apply andb_prop in Ho as [[_ Hn]%andb_prop _]. by apply Nat.leb_le.
Qed.

Lemma den_octet_dot prev pre rest :
  den (Cat octet_pattern (Lit ".")) prev pre rest ↔
  ∃ o, octet o = true ∧ pre = o +:+ ".".
Proof.
  change (den (Cat ?r1 ?r2) prev pre rest)
    with (∃ a b, pre = a +:+ b ∧ den r1 prev a (b +:+ rest)
                 ∧ den r2 (last_char prev a) b rest).
  setoid_rewrite den_octet_pattern. split.
  - intros (a & b & -> & Ha & x & -> & <-%Ascii.eqb_eq). by exists a.
  - intros (o & Ho & ->). exists o, ".". split; [done|]. split; [done|].
    by exists "."%char.
Qed.

Lemma join_four (a b c d : string) :
  PyStr.join "." [a; b; c; d]
  = ((a +:+ ".") +:+ (b +:+ ".") +:+ (c +:+ ".") +:+ EmptyString) +:+ d.
Proof.
  simpl. by rewrite append_nil_r, !append_assoc, !append_cons, !append_nil_l.
Qed.

(** Between the start of the subject and [rest], the IPv4 pattern matches
    four octets joined by dots, if [rest] is empty or a line feed. *)
Lemma den_ipv4_pattern pre rest :
  den ipv4_pattern None pre rest ↔
  ∃ a b c d, octet a = true ∧ octet b = true ∧ octet c = true
             ∧ octet d = true
             ∧ pre = PyStr.join "." [a; b; c; d]
             ∧ (rest = EmptyString ∨ rest = String newline EmptyString).
Proof.
  rewrite ipv4_pattern_fields. split.
  - intros (a0 & b0 & -> & [-> _] & f & b1 & ->
            & (k & Hk & Hpow)%den_Rep_Some & d & b2 & ->
            & Hd%den_octet_pattern & -> & Hrest).
    assert (k = 3%nat) as -> by lia.
    destruct Hpow as (x1 & y1 & -> & (a & Ha & ->)%den_octet_dot
                      & x2 & y2 & -> & (b & Hb & ->)%den_octet_dot
                      & x3 & y3 & -> & (c & Hc & ->)%den_octet_dot & ->).
    exists a, b, c, d. repeat (split; [done|]). split; [|done].
    by rewrite join_four, !append_assoc, ?append_nil_l, ?append_nil_r.
  - intros (a & b & c & d & Ha & Hb & Hc & Hd & -> & Hrest).
    rewrite join_four.
    set (f := (a +:+ ".") +:+ (b +:+ ".") +:+ (c +:+ ".") +:+ EmptyString).
    exists EmptyString, (f +:+ d). split; [done|]. split; [done|].
    exists f, d. split; [done|]. split.
    + apply den_Rep_Some. exists 3%nat. split; [lia|].
      exists (a +:+ "."), ((b +:+ ".") +:+ (c +:+ ".") +:+ EmptyString).
      split; [done|]. split; [apply den_octet_dot; by exists a|].
      exists (b +:+ "."), ((c +:+ ".") +:+ EmptyString).
      split; [done|]. split; [apply den_octet_dot; by exists b|].
      exists (c +:+ "."), EmptyString.
      split; [done|]. split; [apply den_octet_dot; by exists c|done].
    + exists d, EmptyString. split; [by rewrite append_nil_r|].
      split; [by apply den_octet_pattern|done].
Qed.

(** A match at the start of [s] of a pattern that ends in [$]: the text
    matched is [s], or [s] without the line feed that ends it. *)
Lemma match_eol (D : string → Prop) r s :
  (∀ pre rest, den r None pre rest ↔
     D pre ∧ (rest = EmptyString ∨ rest = String newline EmptyString)) →
  match_ r s = true ↔
  ∃ pre, D pre ∧ (s = pre ∨ s = pre +:+ String newline EmptyString).
Proof.
  intros Hr. rewrite match_den. split.
  - intros (pre & rest & -> & [Hpre Hrest]%Hr). exists pre. split; [done|].
    destruct Hrest as [-> | ->]; [left; by rewrite append_nil_r|by right].
  - intros (pre & Hpre & Hs).
    exists pre, (if decide (s = pre) then EmptyString
                 else String newline EmptyString).
    split.
    + destruct (decide _) as [E|E]; [by rewrite append_nil_r|by destruct Hs].
    + apply Hr. split; [done|]. destruct (decide _); auto.
Qed.

Lemma is_digit_host_char a : is_digit a = true → host_char a = true.
Proof. by destruct a as [[] [] [] [] [] [] [] []]. Qed.

Lemma is_digit_target_char a : is_digit a = true → target_char a = true.
Proof. by destruct a as [[] [] [] [] [] [] [] []]. Qed.

Lemma last_char_all ok prev s :
  all_chars ok s = true → s ≠ EmptyString →
  ∃ x, last_char prev s = Some x ∧ ok x = true.
Proof.
  revert prev. induction s as [|a s IH]; intros prev Hall Hne; [done|].
  simpl in *. apply andb_prop in Hall as [Ha Hs].
  destruct s as [|b s]; [by exists a|]. by apply IH.
Qed.

(** Digits, not more than 63, make a label that neither begins nor ends
    with a dash. *)
Lemma digits_label g :
  all_chars is_digit g = true → (1 ≤ String.length g ≤ 63)%nat →
  label g ∧ PyStr.startswith "-" g = false
  ∧ last_char None g ≠ Some "-"%char.
Proof.
  intros Hd Hn. split; [|split].
  - split; [|done].
    apply (all_chars_impl is_digit); [|done].
    apply is_digit_host_char.
  - destruct g as [|a g]; [done|]. simpl in Hd.
    apply andb_prop in Hd as [Ha _].
    change (PyStr.startswith "-" (String a g)) with (Ascii.eqb "-" a && true).
    by destruct a as [[] [] [] [] [] [] [] []].
  - destruct (last_char_all is_digit None g Hd) as (x & -> & Hx).
    + destruct g; [simpl in Hn; lia|done].
    + intros [= ->]. done.
Qed.

Lemma octet_digits o :
  octet o = true →
  all_chars is_digit o = true ∧ (1 ≤ String.length o ≤ 63)%nat.
Proof.
  unfold octet.
  intros [[[Hd H1%Nat.leb_le]%andb_prop H3%Nat.leb_le]%andb_prop _]%andb_prop.
  split; [done|lia].
Qed.

(** Groups of digits joined by dots are what the hostname pattern matches
    between the start of the subject and its end. *)
Lemma den_dotted_numbers groups rest :
  (2 ≤ length groups)%nat →
  Forall (λ g, all_chars is_digit g = true
               ∧ (1 ≤ String.length g ≤ 63)%nat) groups →
  rest = EmptyString ∨ rest = String newline EmptyString →
  den hostname_pattern None (PyStr.join "." groups) rest.
Proof.
  intros Hn Hall Hrest. destruct groups as [|g gs]; [simpl in Hn; lia|].
  apply Forall_cons in Hall as [[Hg1 Hg2] Hgs].
  destruct (digits_label g Hg1 Hg2) as (Hl & Hs & He).
  apply den_hostname_pattern. exists g, gs.
  split; [destruct gs; [simpl in Hn; lia|done]|].
  split; [|by auto].
  constructor; [done|]. apply (Forall_impl _ _ _ Hgs).
  intros g' [H1 H2]. by apply digits_label.
Qed.

(** Whatever the IPv4 pattern matches, the hostname pattern matches too. *)
Lemma ipv4_pattern_hostname t :
  match_ ipv4_pattern t = true → match_ hostname_pattern t = true.
Proof.
  rewrite !match_den.
  intros (pre & rest & -> & (a & b & c & d & Ha%octet_digits
          & Hb%octet_digits & Hc%octet_digits & Hd%octet_digits
          & -> & Hrest)%den_ipv4_pattern).
  exists (PyStr.join "." [a; b; c; d]), rest. split; [done|].
  apply den_dotted_numbers; [simpl; lia| |done].
  repeat (constructor; [done|]). constructor.
Qed.

Lemma all_chars_join ok sep pieces :
  ok sep = true → Forall (λ s, all_chars ok s = true) pieces →
  all_chars ok (PyStr.join sep pieces) = true.
Proof.
  intros Hsep. induction 1 as [|piece rest Hp Hrest IH]; [done|].
  destruct rest as [|piece' rest]; [done|].
  change (PyStr.join sep (piece :: piece' :: rest))
    with (piece +:+ String sep (PyStr.join sep (piece' :: rest))).
  rewrite all_chars_append, Hp.
  change (all_chars ok (String sep ?x)) with (ok sep && all_chars ok x).
  by rewrite Hsep, IH.
Qed.

(** A valid target without white space, given alone, is returned alone. *)
Lemma normalize_targets_one fs t :
  isfile fs t = false → is_valid_target t = true →
  all_chars target_char t = true →
  normalize_targets fs t false = Ret [t].
Proof.
  intros Hf Hv Hc. rewrite TargetsProofs.normalize_targets_direct by done.
  rewrite ParsePortsProofs.split_no_sep
    by by apply (all_chars_contains target_char).
  unfold targets_of, valid_entries. simpl.
  rewrite TargetsProofs.strip_no_space.
  - rewrite filter_cons_True by done. done.
  - apply (all_chars_impl target_char); [|done].
    intros a Ha. by rewrite (TargetsProofs.target_char_not_space a Ha).
Qed.

Example normalize_targets_out_of_range :
  normalize_targets no_files "999.999.999.999, 1.2.3.4.5" false
  = Ret ["999.999.999.999"; "1.2.3.4.5"].
Proof. vm_compute. reflexivity. Qed.

(** X22. The hostname pattern accepts exactly the names made of two or
    more labels joined by dots, each label being 1 to 63 letters, digits or
    dashes and the first one neither beginning nor ending with a dash, and
    these names followed by one line feed.  Later labels may begin or end
    with a dash, and the length of the whole name is not bounded. *)
Theorem hostname_pattern_exact s :
  match_ hostname_pattern s = true ↔
  ∃ l ls, (ls ≠ [] ∧ Forall label (l :: ls)
           ∧ PyStr.startswith "-" l = false
           ∧ last_char None l ≠ Some "-"%char)
          ∧ (s = PyStr.join "." (l :: ls)
             ∨ s = PyStr.join "." (l :: ls) +:+ String newline EmptyString).
Proof.
  rewrite (match_eol (λ pre, ∃ l ls,
             (ls ≠ [] ∧ Forall label (l :: ls)
              ∧ PyStr.startswith "-" l = false
              ∧ last_char None l ≠ Some "-"%char)
             ∧ pre = PyStr.join "." (l :: ls))).
  - split.
    + intros (pre & (l & ls & H & ->) & Hs). by exists l, ls.
    + intros (l & ls & H & Hs). exists (PyStr.join "." (l :: ls)).
      split; [by exists l, ls|done].
  - intros pre rest. rewrite den_hostname_pattern. split.
    + intros (l & ls & H1 & H2 & H3 & H4 & H5 & H6). split; [|done].
      by exists l, ls.
    + intros [(l & ls & (H1 & H2 & H3 & H4) & H5) H6]. by exists l, ls.
Qed.

(** X23. Of the ASCII texts, the IPv4 pattern accepts exactly four fields
    joined by dots, each field being one to three digits that denote a
    number from 0 to 255 (zeros may lead), and such a text followed by one
    line feed. *)
Theorem ipv4_pattern_exact s :
  match_ ipv4_pattern s = true ↔
  ∃ a b c d, (octet a = true ∧ octet b = true ∧ octet c = true
              ∧ octet d = true)
             ∧ (s = PyStr.join "." [a; b; c; d]
                ∨ s = PyStr.join "." [a; b; c; d]
                      +:+ String newline EmptyString).
Proof.
  rewrite (match_eol (λ pre, ∃ a b c d,
             (octet a = true ∧ octet b = true ∧ octet c = true
              ∧ octet d = true)
             ∧ pre = PyStr.join "." [a; b; c; d])).
  - split.
    + intros (pre & (a & b & c & d & H & ->) & Hs). by exists a, b, c, d.
    + intros (a & b & c & d & H & Hs). exists (PyStr.join "." [a; b; c; d]).
      split; [by exists a, b, c, d|done].
  - intros pre rest. rewrite den_ipv4_pattern. split.
    + intros (a & b & c & d & H1 & H2 & H3 & H4 & H5 & H6). split; [|done].
      by exists a, b, c, d.
    + intros [(a & b & c & d & (H1 & H2 & H3 & H4) & H5) H6].
      by exists a, b, c, d.
Qed.

(** X24. On ASCII text the IPv4 pattern never decides whether a target is
    valid: the hostname pattern accepts whatever it accepts, so a target is
    valid exactly when the IPv6 pattern or the hostname pattern matches it. *)
Theorem is_valid_target_ipv4_redundant t :
  is_valid_target t
  = match_ ipv6_pattern t || match_ hostname_pattern t.
Proof.
  unfold is_valid_target.
  destruct (match_ ipv4_pattern t) eqn:E4; [|done].
  rewrite (ipv4_pattern_hostname t E4). by rewrite !orb_true_r.
Qed.

(** X25. No range of numbers is enforced: two or more groups of 1 to 63
    digits joined by dots, such as 999.999.999.999 or 1.2.3.4.5, form a
    valid target, and [normalize_targets] returns such a text as its one
    target. *)
Theorem normalize_targets_dotted_numbers fs groups :
  (2 ≤ length groups)%nat →
  Forall (λ g, all_chars is_digit g = true
               ∧ (1 ≤ String.length g ≤ 63)%nat) groups →
  isfile fs (PyStr.join "." groups) = false →
  is_valid_target (PyStr.join "." groups) = true
  ∧ normalize_targets fs (PyStr.join "." groups) false
    = Ret [PyStr.join "." groups].
Proof.
  intros Hn Hall Hf.
  assert (is_valid_target (PyStr.join "." groups) = true) as Hv.
  { unfold is_valid_target.
    assert (match_ hostname_pattern (PyStr.join "." groups) = true) as ->.
    { apply match_den. exists (PyStr.join "." groups), EmptyString.
      split; [by rewrite append_nil_r|]. apply den_dotted_numbers; auto. }
    by rewrite orb_true_r. }
  split; [done|]. apply normalize_targets_one; [done|done|].
  apply all_chars_join; [done|]. apply (Forall_impl _ _ _ Hall).
  intros g [Hg _]. apply (all_chars_impl is_digit); [|done].
  apply is_digit_target_char.
Qed.

Lemma normalize_targets_dotted_numbers_witness :
  is_valid_target (PyStr.join "." ["999"; "999"; "999"; "999"]) = true
  ∧ normalize_targets no_files
      (PyStr.join "." ["999"; "999"; "999"; "999"]) false
    = Ret [PyStr.join "." ["999"; "999"; "999"; "999"]].
Proof.
  apply (normalize_targets_dotted_numbers no_files
           ["999"; "999"; "999"; "999"]).
  - simpl. lia.
  - repeat constructor; simpl; lia.
  - reflexivity.
Defined.

End PatternProofs.
